(** * Saturating uint8 subtraction ufunc: [_subtract_nowrap.c]

    A shallow embedding of
    [pupil_src/shared_modules/video_capture/_subtract_nowrap.c]
    and the properties of its strided loop [subtract_nowrap_uint8] and of
    the ufunc registration done by the two module initialisers.

    Memory is a finite map from byte addresses to byte values; the loop is
    a computation in a small state-and-failure monad that also records
    every load and store it performs, in program order.  A load or store
    of an address outside the map makes the whole call fail ([None]),
    which stands for the undefined behaviour of the C program there. *)

From Stdlib Require Import ZArith Lia List String.
From stdpp Require Import base option list strings gmap.
From Equations Require Import Equations.

Local Open Scope Z_scope.

(** ** Memory, accesses and the monad *)

(** One memory access of the loop, in the order the C code performs it. *)
Inductive access : Type :=
| Rd (p : Z)
| Wr (p : Z) (v : Z).

(** The machine state a call works on: the byte heap (address to value of
    an [npy_uint8] cell) and the accesses made so far. *)
Record state : Type := State {
  heap : gmap Z Z;
  trace : list access
}.

(** Computations that thread the state and may fail. *)
Definition M (A : Type) : Type := state → option (A * state).

Definition ret {A} (x : A) : M A := λ s, Some (x, s).

Definition bind {A B} (m : M A) (f : A → M B) : M B :=
  λ s, match m s with
       | Some (x, s') => f x s'
       | None => None
       end.

Notation "x <- m ;; k" := (bind m (λ x, k))
  (at level 100, m at next level, right associativity).

(** [*p] as an rvalue. *)
Definition load (p : Z) : M Z :=
  λ s, match heap s !! p with
       | Some v => Some (v, State (heap s) (trace s ++ [Rd p]))
       | None => None
       end.

(** [*p = v]. *)
Definition store (p v : Z) : M unit :=
  λ s, match heap s !! p with
       | Some _ => Some (tt, State (<[p := v]> (heap s)) (trace s ++ [Wr p v]))
       | None => None
       end.

(** Conversion of an [int] to [npy_uint8] on assignment. *)
Definition to_uint8 (v : Z) : Z := v mod 256.

(** ** The loop of [subtract_nowrap_uint8] *)

(** The loop body between BEGIN and the pointer increments:
    [if ( *in1 > *in2) { *in1 -= *in2; } else { *in1 = 0; }].
    The operands are promoted to [int], so the comparison and the
    difference are those of the integers; the compound assignment reads
    both cells again and converts the difference back to [npy_uint8].
    Operands are loaded left to right. *)
Definition body (in1 in2 : Z) : M unit :=
  x <- load in1 ;;
  y <- load in2 ;;
  if x >? y then
    x' <- load in1 ;;
    y' <- load in2 ;;
    store in1 (to_uint8 (x' - y'))
  else
    store in1 0.

#[local] Unset Equations With Funext.
#[local] Set Warnings "-solve_obligation_error".

(** [for (i = 0; i < n; i++) { body; in1 += in1_step; in2 += in2_step; }]
    entered with the current [i], [in1] and [in2].  [npy_intp] values and
    addresses are integers; [i] stays below [n], so the counter cannot
    overflow.  The pointers have type [npy_uint8 *], so a step of [k]
    moves them by [k] cells. *)
Equations? loop (i n in1 in2 in1_step in2_step : Z) (s : state)
  : option (unit * state) by wf (Z.to_nat (n - i)) lt :=
  loop i n in1 in2 in1_step in2_step s with Z_lt_dec i n := {
    | left _ =>
        match body in1 in2 s with
        | Some (_, s') =>
            loop (i + 1) n (in1 + in1_step) (in2 + in2_step)
                 in1_step in2_step s'
        | None => None
        end
    | right _ => ret tt s }.
Proof. lia. Qed.

(** The unfolding equation of [loop], proved here so that it does not rest
    on functional extensionality. *)
Next Obligation.
  unfold loop. rewrite Subterm.FixWf_unfold.
  - simpl. unfold loop_functional, loop_unfold. simpl.
    destruct (Z_lt_dec i n); simpl; [|reflexivity].
    destruct (body in1 in2 s) as [[u s']|]; reflexivity.
  - intros x f g Hfg. unfold loop_functional.
    destruct x as (i' & n' & p1 & p2 & t1 & t2 & s0). simpl in *.
    destruct (Z_lt_dec i' n'); simpl; [|reflexivity].
    destruct (body _ _ _) as [[u s']|]; [apply Hfg | reflexivity].
Defined.

(** [static void subtract_nowrap_uint8(char **args, npy_intp *dimensions,
    npy_intp *steps, void *data)].  The three arrays are the lists of
    their entries; an entry the function reads and the caller did not
    supply makes the call fail.  [data] is not used. *)
Definition subtract_nowrap_uint8
    (args dimensions steps : list Z) (data : Z) : M unit :=
  λ s,
    n ← dimensions !! 0%nat;
    in1 ← args !! 0%nat;
    in2 ← args !! 1%nat;
    in1_step ← steps !! 0%nat;
    in2_step ← steps !! 1%nat;
    loop 0 n in1 in2 in1_step in2_step s.

(** ** What one iteration and a run of iterations do *)

(** The value the body leaves in the cell of the first operand, from the
    values [x] and [y] the two cells held when the iteration started. *)
Definition cell_result (x y : Z) : Z :=
  if x >? y then to_uint8 (x - y) else 0.

(** The accesses of one iteration, in order. *)
Definition body_trace (in1 in2 x y : Z) : list access :=
  if x >? y
  then [Rd in1; Rd in2; Rd in1; Rd in2; Wr in1 (to_uint8 (x - y))]
  else [Rd in1; Rd in2; Wr in1 0].

(** The loop seen as [k] iterations from the current pointers: a proof
    device, shown equal to [loop] in [loop_iter]. *)
Fixpoint iter (k : nat) (in1 in2 in1_step in2_step : Z) (s : state)
  : option (unit * state) :=
  match k with
  | O => Some (tt, s)
  | S k' =>
      match body in1 in2 s with
      | Some (_, s') =>
          iter k' (in1 + in1_step) (in2 + in2_step) in1_step in2_step s'
      | None => None
      end
  end.

(** Address of element [i] of the stream that starts at [p] and advances
    by [step] per element. *)
Definition elem (p step i : Z) : Z := p + i * step.

(** The stream at [p] with stride [step] holds the [n] values [f 0], ...,
    [f (n-1)] in the heap [m]. *)
Definition reads (m : gmap Z Z) (p step n : Z) (f : Z → Z) : Prop :=
  ∀ i, 0 ≤ i < n → m !! elem p step i = Some (f i).

(** Every cell of the heap holds an [npy_uint8]. *)
Definition bytes (m : gmap Z Z) : Prop :=
  map_Forall (λ _ v, 0 ≤ v < 256) m.

(** The layout the specification's data model asks of a call whose
    output is aliased to an input: the output can be overwritten element
    by element without a later iteration needing a value already
    consumed.  For this loop, which writes the first stream: the [n] cells
    of the first stream are pairwise distinct, and no cell already
    overwritten (first stream, index [i]) is the cell read later from the
    second stream (index [j > i]).  Streams that do not overlap at all
    satisfy it, and so does a stream subtracted from itself. *)
Definition layout_ok (p1 s1 p2 s2 n : Z) : Prop :=
  (∀ i j, 0 ≤ i < j → j < n → elem p1 s1 i ≠ elem p1 s1 j) ∧
  (∀ i j, 0 ≤ i < j → j < n → elem p1 s1 i ≠ elem p2 s2 j).

(** [q] is one of the [n] cells of the stream at [p] with stride [step]. *)
Definition in_stream (p step n q : Z) : Prop :=
  ∃ i, 0 ≤ i < n ∧ q = elem p step i.

(** An access the loop may make in a call over [n] elements: it loads
    from cells of the two streams only, and stores bytes to cells of the
    first stream only. *)
Definition access_ok (p1 s1 p2 s2 n : Z) (e : access) : Prop :=
  match e with
  | Rd q => in_stream p1 s1 n q ∨ in_stream p2 s2 n q
  | Wr q v => in_stream p1 s1 n q ∧ 0 ≤ v < 256
  end.

(** ** The contract in the specification's words

    [apply(a, b, out, n)] over three element streams, each a base address
    and a stride, with [out] a stream of its own: a single pass,
    [i] from [0] to [n-1], that stores into [out[i]] the difference
    [a[i] - b[i]] if [a[i] > b[i]] and [0] otherwise.  It is the reference
    the in-place loop is compared with. *)
Module Spec.

Record ElementStream : Type := { base : Z; stride : Z }.

Definition cell (st : ElementStream) (i : Z) : Z := base st + i * stride st.

Definition saturating_sub (x y : Z) : Z := if x >? y then x - y else 0.

Fixpoint apply_from (k : nat) (i : Z) (a b out : ElementStream)
    (m : gmap Z Z) : option (gmap Z Z) :=
  match k with
  | O => Some m
  | S k' =>
      x ← m !! cell a i;
      y ← m !! cell b i;
      _ ← m !! cell out i;
      apply_from k' (i + 1) a b out (<[cell out i := saturating_sub x y]> m)
  end.

Definition apply (a b out : ElementStream) (n : Z) (m : gmap Z Z)
  : option (gmap Z Z) :=
  apply_from (Z.to_nat n) 0 a b out m.

(** [out] is a buffer of its own: [n] distinct cells, none of them a cell
    of [a] or of [b]. *)
Definition separate (out a b : ElementStream) (n : Z) : Prop :=
  (∀ i j, 0 ≤ i < n → 0 ≤ j < n →
          cell out i ≠ cell a j ∧ cell out i ≠ cell b j) ∧
  (∀ i j, 0 ≤ i < j → j < n → cell out i ≠ cell out j).

End Spec.

(** ** Registration of the ufunc *)

(** The NumPy type numbers the file can name; [NPY_UINT8] is the one it
    uses. *)
Inductive NPY_TYPES : Type :=
| NPY_BOOL
| NPY_INT8
| NPY_UINT8.

(** The identity values of a ufunc. *)
Inductive PyUFunc_IdentityValue : Type :=
| PyUFunc_Zero
| PyUFunc_One
| PyUFunc_None.

(** [PyUFuncGenericFunction]: a strided inner loop. *)
Definition PyUFuncGenericFunction : Type :=
  list Z → list Z → list Z → Z → M unit.

(** The ufunc object, as the record of what the constructor was given. *)
Record PyUFuncObject : Type := {
  functions : list PyUFuncGenericFunction;
  userdata : list (option Z);
  uf_types : list NPY_TYPES;
  ntypes : Z;
  nin : Z;
  nout : Z;
  identity : PyUFunc_IdentityValue;
  name : string;
  doc : string
}.

(** NumPy's constructor; its parameters are, in this order, [func],
    [data], [types], [ntypes], [nin], [nout], [identity], [name], [doc]
    and [unused]. *)
Definition PyUFunc_FromFuncAndData
    (func : list PyUFuncGenericFunction) (data : list (option Z))
    (types : list NPY_TYPES) (ntypes nin nout : Z)
    (identity : PyUFunc_IdentityValue) (name doc : string) (unused : Z)
  : PyUFuncObject :=
  {| functions := func; userdata := data; uf_types := types;
     ntypes := ntypes; nin := nin; nout := nout;
     identity := identity; name := name; doc := doc |}.

(** [PyUFuncGenericFunction funcs[1] = {&subtract_nowrap_uint8};] *)
Definition funcs : list PyUFuncGenericFunction := [subtract_nowrap_uint8].

(** [static char types[2] = {NPY_UINT8, NPY_UINT8};] *)
Definition types : list NPY_TYPES := [NPY_UINT8; NPY_UINT8].

(** [static void *data[1] = {NULL};] *)
Definition data : list (option Z) := [None].

(** The branch compiled when [PY_VERSION_HEX >= 0x03000000]:
    the ufunc [PyInit__npufunc] creates, and the module dictionary it
    fills once the module itself has been created. *)
Module Py3.

Definition subtract_nowrap : PyUFuncObject :=
  PyUFunc_FromFuncAndData funcs data types 1 2 0 PyUFunc_None
    "subtract_nowrap" "subtract_nowrap_docstring" 0.

Definition PyInit__npufunc : gmap string PyUFuncObject :=
  <["subtract_nowrap"%string := subtract_nowrap]> ∅.

End Py3.

(** The other branch: [init_npufunc]. *)
Module Py2.

Definition subtract_nowrap : PyUFuncObject :=
  PyUFunc_FromFuncAndData funcs data types 1 2 1 PyUFunc_None
    "subtract_nowrap" "subtract_nowrap_docstring" 0.

Definition init_npufunc : gmap string PyUFuncObject :=
  <["subtract_nowrap"%string := subtract_nowrap]> ∅.

End Py2.

(** The signature a registration declares for its loop number [0]: the
    first [nin] entries of the types table are the input types, the next
    [nout] the output types. *)
Definition signature (u : PyUFuncObject)
  : list NPY_TYPES * list NPY_TYPES :=
  (take (Z.to_nat (nin u)) (uf_types u),
   take (Z.to_nat (nout u)) (drop (Z.to_nat (nin u)) (uf_types u))).

(** A registration of a binary ufunc with one output,
    [(uint8, uint8) -> uint8]: two inputs, one output, and a types table
    with the three entries that go with them. *)
Definition binary_one_output (u : PyUFuncObject) : Prop :=
  nin u = 2 ∧ nout u = 1 ∧
  Z.of_nat (length (uf_types u)) = ntypes u * (nin u + nout u) ∧
  signature u = ([NPY_UINT8; NPY_UINT8], [NPY_UINT8]).

(** ** A concrete call

    The first scenario of the specification: [a = [5, 2, 10, 0]] at
    addresses [100..103] and [b = [3, 7, 10, 1]] at [200..203], with a
    spare buffer at [300..303]. *)
Definition scenario_a (i : Z) : Z := nth (Z.to_nat i) [5; 2; 10; 0] 0.

Definition scenario_b (i : Z) : Z := nth (Z.to_nat i) [3; 7; 10; 1] 0.

Definition scenario : state :=
  State (<[100 := 5]> (<[101 := 2]> (<[102 := 10]> (<[103 := 0]>
        (<[200 := 3]> (<[201 := 7]> (<[202 := 10]> (<[203 := 1]>
        (<[300 := 9]> (<[301 := 9]> (<[302 := 9]> (<[303 := 9]>
        ∅)))))))))))) [].

(** The same eight values interleaved in one buffer at [400..407], [a] at
    the even offsets and [b] at the odd ones. *)
Definition interleaved : state :=
  State (<[400 := 5]> (<[401 := 3]> (<[402 := 2]> (<[403 := 7]>
        (<[404 := 10]> (<[405 := 10]> (<[406 := 0]> (<[407 := 1]>
        ∅)))))))) [].

(** A second call whose streams agree with the scenario at index [1] only:
    [a' = [200, 2]] at [500..501] and [b' = [100, 7]] at [600..601]. *)
Definition other_a (i : Z) : Z := nth (Z.to_nat i) [200; 2] 0.

Definition other_b (i : Z) : Z := nth (Z.to_nat i) [100; 7] 0.

Definition other : state :=
  State (<[500 := 200]> (<[501 := 2]> (<[600 := 100]> (<[601 := 7]> ∅)))) [].

(** ** Tactics for calls on concrete states *)

Ltac index_cases i :=
  assert (i = 0 ∨ i = 1 ∨ i = 2 ∨ i = 3) as [->|[->|[->| ->]]] by lia;
  try lia.

Ltac solve_reads :=
  let i := fresh "i" in let H := fresh "H" in
  intros i H; index_cases i; vm_compute; reflexivity.

Ltac solve_allocated :=
  let i := fresh "i" in let H := fresh "H" in
  intros i H; index_cases i; repeat split; vm_compute; eexists; reflexivity.

Ltac solve_bytes :=
  unfold bytes; simpl;
  repeat (apply map_Forall_insert_2; [lia|]); apply map_Forall_empty.

Ltac solve_layout :=
  split; intros ? ? ? ?; unfold elem; lia.


(** ** Further notions for the loop *)

(** The addresses stored to by a sequence of accesses, in order. *)
Definition store_addresses (t : list access) : list Z :=
  omap (λ e, match e with Wr p _ => Some p | Rd _ => None end) t.

(** [f 0 + ... + f (n-1)]. *)
Definition sum_stream (f : Z → Z) (n : Z) : Z :=
  foldr Z.add 0 (f <$> seqZ 0 n).

(** The [n] cells of the stream at [p] are pairwise distinct. *)
Definition distinct_cells (p step n : Z) : Prop :=
  ∀ i j, 0 ≤ i < j → j < n → elem p step i ≠ elem p step j.

(** No cell of the stream at [p1] is a cell of the stream at [p2]. *)
Definition apart (p1 s1 p2 s2 n : Z) : Prop :=
  ∀ i j, 0 ≤ i < n → 0 ≤ j < n → elem p1 s1 i ≠ elem p2 s2 j.

(** One buffer [[1, 5, 9]] at [100..102], to be read through two
    overlapping views. *)
Definition overlapping : state :=
  State (<[100 := 1]> (<[101 := 5]> (<[102 := 9]> ∅))) [].

(** A single cell [10] at [100], to be broadcast against [[3, 3]] at
    [200..201]. *)
Definition broadcast : state :=
  State (<[100 := 10]> (<[200 := 3]> (<[201 := 3]> ∅))) [].

(** [[5, 2]] at [100..101] and a stream of zeros at [200..201]. *)
Definition with_zeros : state :=
  State (<[100 := 5]> (<[101 := 2]> (<[200 := 0]> (<[201 := 0]> ∅)))) [].

(** A cell of the stream at [p1] and a cell of the stream at [p2] coincide
    at most when they have the same index. *)
Definition no_cross_overlap (p1 s1 p2 s2 n : Z) : Prop :=
  ∀ i j, 0 ≤ i < n → 0 ≤ j < n → i ≠ j → elem p1 s1 i ≠ elem p2 s2 j.

(** The running clamped difference along [x], started from [r]:
    [r], then [x 1] less it, then [x 2] less that, ..., each clamped at
    zero. *)
Fixpoint running_from (r : Z) (x : Z → Z) (k : nat) : Z :=
  match k with
  | O => r
  | S k' =>
      let q := running_from r x k' in
      if x (Z.of_nat (S k')) >? q then x (Z.of_nat (S k')) - q else 0
  end.

Definition running_difference (x : Z → Z) (k : nat) : Z :=
  running_from (x 0) x k.

(** One buffer [[9, 5, 7, 1]] at [700..703]. *)
Definition buffer_x (i : Z) : Z := nth (Z.to_nat i) [9; 5; 7; 1] 0.

Definition buffer : state :=
  State (<[700 := 9]> (<[701 := 5]> (<[702 := 7]> (<[703 := 1]> ∅)))) [].

Ltac solve_apart := intros ? ? ? ?; unfold elem; lia.

(** ** Lemmas on the body *)

Lemma body_eq in1 in2 s x y :
  heap s !! in1 = Some x →
  heap s !! in2 = Some y →
  body in1 in2 s =
    Some (tt, State (<[in1 := cell_result x y]> (heap s))
                    (trace s ++ body_trace in1 in2 x y)).
Proof.
  intros H1 H2.
  unfold body, bind, load, store, cell_result, body_trace; simpl.
  rewrite H1; simpl. rewrite H2; simpl.
  destruct (x >? y); simpl; rewrite ?H1; simpl; rewrite ?H2; simpl;
    rewrite ?H1; simpl; rewrite <- ?app_assoc; reflexivity.
Qed.

Lemma body_inv in1 in2 s u s' :
  body in1 in2 s = Some (u, s') →
  ∃ x y, heap s !! in1 = Some x ∧ heap s !! in2 = Some y ∧
         s' = State (<[in1 := cell_result x y]> (heap s))
                    (trace s ++ body_trace in1 in2 x y).
Proof.
  intros H.
  destruct (heap s !! in1) as [x|] eqn:H1;
    [|unfold body, bind, load in H; simpl in H; rewrite H1 in H; discriminate].
  destruct (heap s !! in2) as [y|] eqn:H2;
    [|unfold body, bind, load in H; simpl in H; rewrite H1 in H; simpl in H;
      rewrite H2 in H; discriminate].
  exists x, y. rewrite (body_eq _ _ _ _ _ H1 H2) in H.
  repeat split; congruence.
Qed.

Lemma cell_result_range x y : 0 ≤ cell_result x y < 256.
Proof.
  unfold cell_result, to_uint8. destruct (x >? y); [|lia].
  apply Z.mod_pos_bound; lia.
Qed.

Lemma cell_result_exact x y :
  0 ≤ x < 256 → 0 ≤ y < 256 →
  cell_result x y = if x >? y then x - y else 0.
Proof.
  intros Hx Hy. unfold cell_result, to_uint8.
  destruct (x >? y) eqn:E; [|reflexivity].
  apply Z.gtb_lt in E. apply Z.mod_small; lia.
Qed.

Lemma cell_result_le x y : 0 ≤ y → 0 ≤ x → cell_result x y ≤ x.
Proof.
  intros Hy Hx. unfold cell_result, to_uint8.
  destruct (x >? y) eqn:E; [|lia].
  apply Z.gtb_lt in E.
  pose proof (Z.mod_le (x - y) 256). lia.
Qed.

(** ** [loop] is [iter] *)

Lemma loop_step i n in1 in2 s1 s2 s :
  i < n →
  loop i n in1 in2 s1 s2 s =
    match body in1 in2 s with
    | Some (_, s') => loop (i + 1) n (in1 + s1) (in2 + s2) s1 s2 s'
    | None => None
    end.
Proof.
  intros H. rewrite loop_equation_1.
  destruct (Z_lt_dec i n); [reflexivity | lia].
Qed.

Lemma loop_done i n in1 in2 s1 s2 s :
  n ≤ i → loop i n in1 in2 s1 s2 s = Some (tt, s).
Proof.
  intros H. rewrite loop_equation_1.
  destruct (Z_lt_dec i n); [lia | reflexivity].
Qed.

Lemma loop_iter k : ∀ i n in1 in2 s1 s2 s,
  k = Z.to_nat (n - i) →
  loop i n in1 in2 s1 s2 s = iter k in1 in2 s1 s2 s.
Proof.
  induction k as [|k IH]; intros i n in1 in2 s1 s2 s Hk.
  - apply loop_done. lia.
  - rewrite loop_step by lia. simpl.
    destruct (body in1 in2 s) as [[u s']|]; [|reflexivity].
    apply IH. lia.
Qed.

(** ** Runs of [iter] *)

Section Iter.

Variables s1 s2 : Z.

Lemma elem_0 p step : elem p step 0 = p.
Proof. unfold elem. lia. Qed.

Lemma elem_shift p step j : elem (p + step) step j = elem p step (j + 1).
Proof. unfold elem. lia. Qed.

(** Cells outside the first stream keep their contents. *)
Lemma iter_frame k : ∀ in1 in2 s u s',
  iter k in1 in2 s1 s2 s = Some (u, s') →
  ∀ q, (∀ j, 0 ≤ j < Z.of_nat k → q ≠ elem in1 s1 j) →
       heap s' !! q = heap s !! q.
Proof.
  induction k as [|k IH]; intros in1 in2 s u s' H q Hq; simpl in H.
  - congruence.
  - destruct (body in1 in2 s) as [[u1 t]|] eqn:Hb; [|discriminate].
    apply body_inv in Hb as (x & y & Hx & Hy & ->).
    rewrite (IH _ _ _ _ _ H q).
    + simpl. apply lookup_insert_ne.
      rewrite <- (elem_0 in1 s1). intros E. apply (Hq 0); [lia | congruence].
    + intros j Hj. rewrite elem_shift. apply Hq. lia.
Qed.

(** No cell is allocated or freed. *)
Lemma iter_dom k : ∀ in1 in2 s u s',
  iter k in1 in2 s1 s2 s = Some (u, s') →
  dom (heap s') = dom (heap s).
Proof.
  induction k as [|k IH]; intros in1 in2 s u s' H; simpl in H.
  - congruence.
  - destruct (body in1 in2 s) as [[u1 t]|] eqn:Hb; [|discriminate].
    apply body_inv in Hb as (x & y & Hx & Hy & ->).
    rewrite (IH _ _ _ _ _ H). simpl. rewrite dom_insert_L.
    assert (in1 ∈ dom (heap s)) by (apply elem_of_dom; eauto).
    apply set_eq. intros q. rewrite elem_of_union, elem_of_singleton.
    split; [intros [->|]; assumption | auto].
Qed.

(** The run completes when the cells of both streams are allocated. *)
Lemma iter_succeeds k : ∀ in1 in2 s,
  (∀ j, 0 ≤ j < Z.of_nat k →
        is_Some (heap s !! elem in1 s1 j) ∧ is_Some (heap s !! elem in2 s2 j)) →
  ∃ s', iter k in1 in2 s1 s2 s = Some (tt, s').
Proof.
  induction k as [|k IH]; intros in1 in2 s Hv; simpl.
  - eauto.
  - destruct (Hv 0) as [[x Hx] [y Hy]]; [lia|].
    rewrite !elem_0 in *. rewrite (body_eq _ _ _ _ _ Hx Hy).
    apply IH. intros j Hj; simpl.
    rewrite !elem_shift, !lookup_insert_is_Some.
    destruct (Hv (j + 1)) as [Ha Hb]; [lia|].
    split; [destruct (decide (in1 = elem in1 s1 (j + 1)))
           |destruct (decide (in1 = elem in2 s2 (j + 1)))]; auto.
Qed.

(** Values left in the first stream under [layout_ok]. *)
Lemma iter_values k : ∀ in1 in2 s (a b : Z → Z),
  reads (heap s) in1 s1 (Z.of_nat k) a →
  reads (heap s) in2 s2 (Z.of_nat k) b →
  layout_ok in1 s1 in2 s2 (Z.of_nat k) →
  ∃ s', iter k in1 in2 s1 s2 s = Some (tt, s') ∧
        reads (heap s') in1 s1 (Z.of_nat k) (λ i, cell_result (a i) (b i)).
Proof.
  induction k as [|k IH]; intros in1 in2 s a b Ha Hb [Hd Hx]; simpl.
  - eexists; split; [reflexivity|]. intros i Hi; lia.
  - pose proof (Ha 0 ltac:(lia)) as Ha0. pose proof (Hb 0 ltac:(lia)) as Hb0.
    rewrite elem_0 in Ha0, Hb0. rewrite (body_eq _ _ _ _ _ Ha0 Hb0).
    set (t := State _ _).
    destruct (IH (in1 + s1) (in2 + s2) t (λ i, a (i + 1)) (λ i, b (i + 1)))
      as (s' & Hrun & Hval).
    + intros j Hj. rewrite elem_shift. subst t; simpl.
      rewrite lookup_insert_ne; [apply Ha; lia|].
      rewrite <- (elem_0 in1 s1) at 1. apply Hd; lia.
    + intros j Hj. rewrite elem_shift. subst t; simpl.
      rewrite lookup_insert_ne; [apply Hb; lia|].
      rewrite <- (elem_0 in1 s1) at 1. apply Hx; lia.
    + split; intros i j Hij Hj; rewrite !elem_shift; [apply Hd | apply Hx]; lia.
    + exists s'. split; [exact Hrun|]. intros i Hi.
      destruct (decide (i = 0)) as [->|Hne].
      * rewrite elem_0.
        rewrite (iter_frame _ _ _ _ _ _ Hrun).
        -- subst t; simpl. apply lookup_insert_eq.
        -- intros j Hj. rewrite elem_shift, <- (elem_0 in1 s1) at 1.
           apply Hd; lia.
      * specialize (Hval (i - 1) ltac:(lia)). rewrite elem_shift in Hval.
        replace (i - 1 + 1) with i in Hval by lia. exact Hval.
Qed.

(** Cell contents never grow, and stay bytes. *)
Lemma iter_le k : ∀ in1 in2 s u s',
  bytes (heap s) →
  iter k in1 in2 s1 s2 s = Some (u, s') →
  bytes (heap s') ∧
  ∀ q v, heap s !! q = Some v → ∃ v', heap s' !! q = Some v' ∧ v' ≤ v.
Proof.
  induction k as [|k IH]; intros in1 in2 s u s' Hby H; simpl in H.
  - inversion H; subst. split; [exact Hby|]. intros q v Hq. exists v. split; [exact Hq | lia].
  - destruct (body in1 in2 s) as [[u1 t]|] eqn:Hb; [|discriminate].
    apply body_inv in Hb as (x & y & Hx & Hy & ->).
    pose proof (Hby _ _ Hx) as Bx. pose proof (Hby _ _ Hy) as By.
    simpl in Bx, By.
    match type of H with iter _ _ _ _ _ ?t = _ =>
      assert (Hby1 : bytes (heap t))
        by (simpl; apply map_Forall_insert_2;
            [apply cell_result_range | exact Hby])
    end.
    destruct (IH _ _ _ _ _ Hby1 H) as [Hby' Hle].
    split; [exact Hby'|]. intros q v Hq.
    destruct (decide (q = in1)) as [->|Hne].
    + destruct (Hle in1 (cell_result x y)) as (v' & Hv' & Hle');
        [simpl; apply lookup_insert_eq|].
      exists v'. split; [exact Hv'|].
      assert (v = x) by congruence. subst v.
      pose proof (cell_result_le x y). lia.
    + apply Hle. simpl. rewrite lookup_insert_ne by congruence. exact Hq.
Qed.

Lemma in_stream_shift p step k q :
  in_stream (p + step) step (Z.of_nat k) q →
  in_stream p step (Z.of_nat (S k)) q.
Proof.
  intros (j & Hj & ->). exists (j + 1). rewrite elem_shift. split; [lia | reflexivity].
Qed.

Lemma in_stream_first p step k : in_stream p step (Z.of_nat (S k)) p.
Proof. exists 0. rewrite elem_0. split; [lia | reflexivity]. Qed.

Lemma access_ok_shift in1 in2 k e :
  access_ok (in1 + s1) s1 (in2 + s2) s2 (Z.of_nat k) e →
  access_ok in1 s1 in2 s2 (Z.of_nat (S k)) e.
Proof.
  destruct e as [q|q v]; simpl.
  - intros [H|H]; [left | right]; apply in_stream_shift; exact H.
  - intros [H Hv]. split; [apply in_stream_shift; exact H | exact Hv].
Qed.

Lemma body_trace_ok in1 in2 k x y :
  Forall (access_ok in1 s1 in2 s2 (Z.of_nat (S k))) (body_trace in1 in2 x y).
Proof.
  pose proof (in_stream_first in1 s1 k) as H1.
  pose proof (in_stream_first in2 s2 k) as H2.
  assert (0 ≤ to_uint8 (x - y) < 256)
    by (unfold to_uint8; apply Z.mod_pos_bound; lia).
  unfold body_trace. destruct (x >? y);
    repeat (apply Forall_cons; split); try apply Forall_nil; simpl; auto;
    split; auto; lia.
Qed.

Lemma body_trace_writes in1 in2 x y :
  In (Wr in1 (cell_result x y)) (body_trace in1 in2 x y).
Proof.
  unfold body_trace, cell_result. destruct (x >? y); simpl; auto 10.
Qed.

Lemma body_trace_wr in1 in2 x y q v :
  In (Wr q v) (body_trace in1 in2 x y) → q = in1 ∧ v = cell_result x y.
Proof.
  unfold body_trace, cell_result. destruct (x >? y); simpl; intros H;
    repeat (destruct H as [H|H]; [try discriminate; inversion H; auto|]);
    contradiction.
Qed.

(** The accesses of a run: only cells of the two streams are loaded,
    only cells of the first are stored to, and each of them is. *)
Lemma iter_trace k : ∀ in1 in2 s u s',
  iter k in1 in2 s1 s2 s = Some (u, s') →
  ∃ t, trace s' = trace s ++ t ∧
       Forall (access_ok in1 s1 in2 s2 (Z.of_nat k)) t ∧
       ∀ j, 0 ≤ j < Z.of_nat k → ∃ v, In (Wr (elem in1 s1 j) v) t.
Proof.
  induction k as [|k IH]; intros in1 in2 s u s' H; simpl in H.
  - inversion H; subst. exists []. rewrite app_nil_r.
    split; [reflexivity|]. split; [constructor | intros j Hj; lia].
  - destruct (body in1 in2 s) as [[u1 t1]|] eqn:Hb; [|discriminate].
    apply body_inv in Hb as (x & y & Hx & Hy & ->).
    destruct (IH _ _ _ _ _ H) as (t & Ht & Hok & Hwr). simpl in Ht.
    exists (body_trace in1 in2 x y ++ t). rewrite app_assoc.
    split; [exact Ht|]. split.
    + apply Forall_app. split; [apply body_trace_ok|].
      eapply Forall_impl; [exact Hok|]. intros e. apply access_ok_shift.
    + intros j Hj. destruct (decide (j = 0)) as [->|Hne].
      * rewrite elem_0. exists (cell_result x y).
        apply in_or_app. left. apply body_trace_writes.
      * destruct (Hwr (j - 1)) as [v Hv]; [lia|].
        rewrite elem_shift in Hv. replace (j - 1 + 1) with j in Hv by lia.
        exists v. apply in_or_app. right. exact Hv.
Qed.

(** Every store writes a byte that does not exceed what the cell held
    when the run started. *)
Lemma iter_writes_le k : ∀ in1 in2 s u s' t,
  bytes (heap s) →
  iter k in1 in2 s1 s2 s = Some (u, s') →
  trace s' = trace s ++ t →
  ∀ q v, In (Wr q v) t →
         0 ≤ v < 256 ∧ ∃ v0, heap s !! q = Some v0 ∧ v ≤ v0.
Proof.
  induction k as [|k IH]; intros in1 in2 s u s' t Hby H Ht q v Hin; simpl in H.
  - inversion H; subst. rewrite <- (app_nil_r (trace s')) in Ht at 1.
    apply app_inv_head in Ht. subst t. contradiction.
  - destruct (body in1 in2 s) as [[u1 t1]|] eqn:Hb; [|discriminate].
    apply body_inv in Hb as (x & y & Hx & Hy & ->).
    pose proof (Hby _ _ Hx) as Bx. pose proof (Hby _ _ Hy) as By.
    simpl in Bx, By.
    destruct (iter_trace _ _ _ _ _ _ H) as (t' & Ht' & _ & _). simpl in Ht'.
    rewrite Ht', <- app_assoc in Ht. apply app_inv_head in Ht. subst t.
    apply in_app_or in Hin as [Hin|Hin].
    + apply body_trace_wr in Hin as [-> ->].
      split; [apply cell_result_range|].
      exists x. split; [exact Hx | apply cell_result_le; lia].
    + match type of H with iter _ _ _ _ _ ?t = _ =>
        assert (Hby1 : bytes (heap t))
          by (simpl; apply map_Forall_insert_2;
              [apply cell_result_range | exact Hby])
      end.
      destruct (IH _ _ _ _ _ t' Hby1 H Ht' q v Hin) as (Hv & v1 & Hv1 & Hle).
      split; [exact Hv|]. simpl in Hv1.
      destruct (decide (in1 = q)) as [<-|Hne].
      * rewrite lookup_insert_eq in Hv1. inversion Hv1; subst v1.
        exists x. split; [exact Hx|].
        pose proof (cell_result_le x y). lia.
      * rewrite lookup_insert_ne in Hv1 by exact Hne. eauto.
Qed.


End Iter.

(** A stream subtracted from itself: every iteration takes the [else]
    branch. *)
Lemma cell_result_self x : cell_result x x = 0.
Proof.
  unfold cell_result. destruct (x >? x) eqn:E; [|reflexivity].
  apply Z.gtb_lt in E. lia.
Qed.

Lemma iter_self k : ∀ p st s,
  (∀ j, 0 ≤ j < Z.of_nat k → is_Some (heap s !! elem p st j)) →
  ∃ s', iter k p p st st s = Some (tt, s') ∧
        (∀ j, 0 ≤ j < Z.of_nat k → heap s' !! elem p st j = Some 0) ∧
        (∀ q, heap s' !! q = Some 0 ∨ heap s' !! q = heap s !! q).
Proof.
  induction k as [|k IH]; intros p st s Hv; simpl.
  - eexists; split; [reflexivity|]. split; [intros j Hj; lia | auto].
  - destruct (Hv 0) as [x Hx]; [lia|]. rewrite elem_0 in Hx.
    rewrite (body_eq _ _ _ _ _ Hx Hx), cell_result_self.
    set (t := State _ _).
    destruct (IH (p + st) st t) as (s' & Hrun & Hz & Hfr).
    + intros j Hj. rewrite elem_shift. subst t; simpl.
      apply lookup_insert_is_Some'. right. apply Hv. lia.
    + exists s'. split; [exact Hrun|]. split.
      * intros j Hj. destruct (decide (j = 0)) as [->|Hne].
        -- rewrite elem_0. destruct (Hfr p) as [E|E]; [exact E|].
           rewrite E. subst t; simpl. apply lookup_insert_eq.
        -- specialize (Hz (j - 1) ltac:(lia)). rewrite elem_shift in Hz.
           replace (j - 1 + 1) with j in Hz by lia. exact Hz.
      * intros q. destruct (Hfr q) as [E|E]; [left; exact E|].
        rewrite E. subst t; simpl.
        destruct (decide (p = q)) as [->|Hne].
        -- left. apply lookup_insert_eq.
        -- right. apply lookup_insert_ne. exact Hne.
Qed.

(** ** The reference contract *)

Lemma body_none_l in1 in2 s : heap s !! in1 = None → body in1 in2 s = None.
Proof.
  intros H. unfold body, bind, load; simpl. rewrite H. reflexivity.
Qed.

Lemma body_none_r in1 in2 s x :
  heap s !! in1 = Some x → heap s !! in2 = None → body in1 in2 s = None.
Proof.
  intros H1 H2. unfold body, bind, load; simpl. rewrite H1; simpl.
  rewrite H2. reflexivity.
Qed.

Lemma elem_succ p step i : elem p step (i + 1) = elem p step i + step.
Proof. unfold elem. lia. Qed.

(** On a heap of bytes the loop is the reference pass with its output
    aliased to the first stream: same failure, same final heap. *)
Lemma iter_apply_aliased k : ∀ i p1 st1 p2 st2 s,
  bytes (heap s) →
  (λ r, heap (snd r)) <$> iter k (elem p1 st1 i) (elem p2 st2 i) st1 st2 s =
  Spec.apply_from k i (Spec.Build_ElementStream p1 st1)
    (Spec.Build_ElementStream p2 st2) (Spec.Build_ElementStream p1 st1)
    (heap s).
Proof.
  induction k as [|k IH]; intros i p1 st1 p2 st2 s Hby; simpl.
  - reflexivity.
  - change (Spec.cell (Spec.Build_ElementStream p1 st1) i) with (elem p1 st1 i).
    change (Spec.cell (Spec.Build_ElementStream p2 st2) i) with (elem p2 st2 i).
    destruct (heap s !! elem p1 st1 i) as [x|] eqn:Hx; simpl;
      [|rewrite body_none_l by exact Hx; reflexivity].
    destruct (heap s !! elem p2 st2 i) as [y|] eqn:Hy; simpl;
      [|rewrite (body_none_r _ _ _ _ Hx Hy); reflexivity].
    rewrite (body_eq _ _ _ _ _ Hx Hy), <- !elem_succ.
    pose proof (Hby _ _ Hx) as Bx. pose proof (Hby _ _ Hy) as By.
    simpl in Bx, By.
    rewrite IH; simpl.
    + rewrite cell_result_exact by assumption. reflexivity.
    + apply map_Forall_insert_2; [apply cell_result_range | exact Hby].
Qed.

Lemma apply_from_frame k : ∀ i a b out m m',
  Spec.apply_from k i a b out m = Some m' →
  ∀ q, (∀ j, i ≤ j < i + Z.of_nat k → q ≠ Spec.cell out j) →
       m' !! q = m !! q.
Proof.
  induction k as [|k IH]; intros i a b out m m' H q Hq; simpl in H.
  - congruence.
  - destruct (m !! Spec.cell a i) as [x|]; [simpl in H|discriminate].
    destruct (m !! Spec.cell b i) as [y|]; [simpl in H|discriminate].
    destruct (m !! Spec.cell out i) as [z|]; [simpl in H|discriminate].
    rewrite (IH _ _ _ _ _ _ H q).
    + apply lookup_insert_ne. intros E. apply (Hq i); [lia | congruence].
    + intros j Hj. apply Hq. lia.
Qed.

(** The reference pass stores the saturating difference of the caller's
    values whenever no cell it has stored to is read or stored to again
    at a later index. *)
Lemma apply_from_values k : ∀ i a b out m (fa fb : Z → Z),
  (∀ j, i ≤ j < i + Z.of_nat k →
        m !! Spec.cell a j = Some (fa j) ∧ m !! Spec.cell b j = Some (fb j) ∧
        is_Some (m !! Spec.cell out j)) →
  (∀ j j', i ≤ j < j' → j' < i + Z.of_nat k →
        Spec.cell out j ≠ Spec.cell a j' ∧ Spec.cell out j ≠ Spec.cell b j' ∧
        Spec.cell out j ≠ Spec.cell out j') →
  ∃ m', Spec.apply_from k i a b out m = Some m' ∧
        ∀ j, i ≤ j < i + Z.of_nat k →
             m' !! Spec.cell out j = Some (Spec.saturating_sub (fa j) (fb j)).
Proof.
  induction k as [|k IH]; intros i a b out m fa fb Hm Hsep; simpl.
  - eexists; split; [reflexivity|]. intros j Hj; lia.
  - destruct (Hm i) as (Ha & Hb & [z Hz]); [lia|].
    rewrite Ha, Hb, Hz; simpl.
    destruct (IH (i + 1) a b out
                (<[Spec.cell out i := Spec.saturating_sub (fa i) (fb i)]> m)
                fa fb) as (m' & Hrun & Hval).
    + intros j Hj. destruct (Hm j) as (Ha' & Hb' & Ho'); [lia|].
      destruct (Hsep i j) as (Na & Nb & No); [lia..|].
      rewrite !lookup_insert_ne by assumption. auto.
    + intros j j' Hj Hj'. apply Hsep; lia.
    + exists m'. split; [exact Hrun|]. intros j Hj.
      destruct (decide (j = i)) as [->|Hne]; [|apply Hval; lia].
      rewrite (apply_from_frame _ _ _ _ _ _ _ Hrun).
      * apply lookup_insert_eq.
      * intros j Hj'. apply Hsep; lia.
Qed.

(** ** The kernel *)

Section Kernel.

(** Entries of [args], [dimensions] and [steps] past those the function
    reads, and the [data] pointer: all of them are ignored. *)
Variables (more_args more_dims more_steps : list Z) (aux : Z).

Lemma kernel_iter in1 in2 n st1 st2 s :
  subtract_nowrap_uint8 (in1 :: in2 :: more_args) (n :: more_dims)
      (st1 :: st2 :: more_steps) aux s = iter (Z.to_nat n) in1 in2 st1 st2 s.
Proof.
  unfold subtract_nowrap_uint8; simpl. apply loop_iter. f_equal. lia.
Qed.

Lemma kernel_values in1 in2 n st1 st2 (a b : Z → Z) s :
  reads (heap s) in1 st1 n a →
  reads (heap s) in2 st2 n b →
  layout_ok in1 st1 in2 st2 n →
  ∃ s', subtract_nowrap_uint8 (in1 :: in2 :: more_args) (n :: more_dims)
      (st1 :: st2 :: more_steps) aux s = Some (tt, s') ∧
        reads (heap s') in1 st1 n (λ i, cell_result (a i) (b i)).
Proof.
  intros Ha Hb [Hd Hx]. rewrite kernel_iter.
  destruct (iter_values st1 st2 (Z.to_nat n) in1 in2 s a b)
    as (s' & Hrun & Hval).
  - intros i Hi. apply Ha. lia.
  - intros i Hi. apply Hb. lia.
  - split; intros i j Hij Hj; [apply Hd | apply Hx]; lia.
  - exists s'. split; [exact Hrun|]. intros i Hi. apply Hval. lia.
Qed.

Lemma kernel_succeeds in1 in2 n st1 st2 s :
  (∀ i, 0 ≤ i < n → is_Some (heap s !! elem in1 st1 i) ∧
                    is_Some (heap s !! elem in2 st2 i)) →
  ∃ s', subtract_nowrap_uint8 (in1 :: in2 :: more_args) (n :: more_dims)
      (st1 :: st2 :: more_steps) aux s = Some (tt, s').
Proof.
  intros Hv. rewrite kernel_iter. apply iter_succeeds.
  intros j Hj. apply Hv. lia.
Qed.

Lemma kernel_frame in1 in2 n st1 st2 s u s' :
  subtract_nowrap_uint8 (in1 :: in2 :: more_args) (n :: more_dims)
      (st1 :: st2 :: more_steps) aux s = Some (u, s') →
  ∀ q, ¬ in_stream in1 st1 n q → heap s' !! q = heap s !! q.
Proof.
  rewrite kernel_iter. intros H q Hq.
  apply (iter_frame _ _ _ _ _ _ _ _ H).
  intros j Hj E. apply Hq. exists j. split; [lia | exact E].
Qed.

Lemma in_stream_to_nat p st n q :
  in_stream p st (Z.of_nat (Z.to_nat n)) q → in_stream p st n q.
Proof. intros (i & Hi & ->). exists i. split; [lia | reflexivity]. Qed.

Lemma access_ok_to_nat in1 in2 n st1 st2 e :
  access_ok in1 st1 in2 st2 (Z.of_nat (Z.to_nat n)) e →
  access_ok in1 st1 in2 st2 n e.
Proof.
  destruct e as [q|q v]; simpl.
  - intros [H|H]; [left | right]; apply in_stream_to_nat; exact H.
  - intros [H Hv]. split; [apply in_stream_to_nat; exact H | exact Hv].
Qed.

Lemma kernel_trace in1 in2 n st1 st2 s u s' :
  subtract_nowrap_uint8 (in1 :: in2 :: more_args) (n :: more_dims)
      (st1 :: st2 :: more_steps) aux s = Some (u, s') →
  ∃ t, trace s' = trace s ++ t ∧
       Forall (access_ok in1 st1 in2 st2 n) t ∧
       ∀ i, 0 ≤ i < n → ∃ v, In (Wr (elem in1 st1 i) v) t.
Proof.
  rewrite kernel_iter. intros H.
  destruct (iter_trace _ _ _ _ _ _ _ _ H) as (t & Ht & Hok & Hwr).
  exists t. split; [exact Ht|]. split.
  - eapply Forall_impl; [exact Hok|]. intros e. apply access_ok_to_nat.
  - intros i Hi. apply Hwr. lia.
Qed.

(** C1.  For every element count [n] and every index [i] in [[0, n)], one
    call leaves in element [i] of the stream it writes, which is the
    first input, the difference [a[i] - b[i]] when [a[i] > b[i]] and [0]
    otherwise, as integers and so without wrapping modulo 256.  The
    streams hold bytes and are laid out as [layout_ok] says; the call
    completes. *)
Theorem subtract_nowrap_uint8_clamped_difference
    in1 in2 n st1 st2 (a b : Z → Z) s :
  bytes (heap s) →
  reads (heap s) in1 st1 n a →
  reads (heap s) in2 st2 n b →
  layout_ok in1 st1 in2 st2 n →
  ∃ s', subtract_nowrap_uint8 (in1 :: in2 :: more_args) (n :: more_dims)
      (st1 :: st2 :: more_steps) aux s = Some (tt, s') ∧
        ∀ i, 0 ≤ i < n →
             heap s' !! elem in1 st1 i =
               Some (if a i >? b i then a i - b i else 0) ∧
             0 ≤ (if a i >? b i then a i - b i else 0) ≤ 255.
Proof.
  intros Hby Ha Hb Hl.
  destruct (kernel_values _ _ _ _ _ a b s Ha Hb Hl) as (s' & Hrun & Hval).
  exists s'. split; [exact Hrun|]. intros i Hi.
  pose proof (Hby _ _ (Ha i Hi)) as Bx. pose proof (Hby _ _ (Hb i Hi)) as By.
  simpl in Bx, By.
  rewrite <- (cell_result_exact _ _ Bx By).
  split; [apply Hval; exact Hi|].
  pose proof (cell_result_range (a i) (b i)). lia.
Qed.

(** C2.  The in-place call, whose output is aliased to the first input,
    computes what the reference pass [Spec.apply] computes: it is that
    pass with [out] aliased to [a] (same final heap), and element for
    element its results are those the pass stores into a separate,
    non-aliased output buffer. *)
Theorem aliased_output_matches_separate_buffer
    in1 in2 n st1 st2 (out : Spec.ElementStream) (a b : Z → Z) s :
  bytes (heap s) →
  reads (heap s) in1 st1 n a →
  reads (heap s) in2 st2 n b →
  layout_ok in1 st1 in2 st2 n →
  Spec.separate out (Spec.Build_ElementStream in1 st1)
    (Spec.Build_ElementStream in2 st2) n →
  (∀ i, 0 ≤ i < n → is_Some (heap s !! Spec.cell out i)) →
  ∃ s' m',
    subtract_nowrap_uint8 (in1 :: in2 :: more_args) (n :: more_dims)
      (st1 :: st2 :: more_steps) aux s = Some (tt, s') ∧
    Spec.apply (Spec.Build_ElementStream in1 st1)
      (Spec.Build_ElementStream in2 st2) (Spec.Build_ElementStream in1 st1)
      n (heap s) = Some (heap s') ∧
    Spec.apply (Spec.Build_ElementStream in1 st1)
      (Spec.Build_ElementStream in2 st2) out n (heap s) = Some m' ∧
    ∀ i, 0 ≤ i < n → heap s' !! elem in1 st1 i = m' !! Spec.cell out i.
Proof.
  intros Hby Ha Hb Hl [Hsep Hdist] Hout.
  destruct (kernel_values _ _ _ _ _ a b s Ha Hb Hl) as (s' & Hrun & Hval).
  destruct (apply_from_values (Z.to_nat n) 0 (Spec.Build_ElementStream in1 st1)
              (Spec.Build_ElementStream in2 st2) out (heap s) a b)
    as (m' & Happ & Hm').
  - intros j Hj. repeat split; [apply Ha | apply Hb | apply Hout]; lia.
  - intros j j' Hj Hj'. destruct (Hsep j j') as [Na Nb]; [lia..|].
    repeat split; [exact Na | exact Nb | apply Hdist; lia].
  - exists s', m'. split; [exact Hrun|]. split; [|split; [exact Happ|]].
    + unfold Spec.apply.
      rewrite <- (iter_apply_aliased (Z.to_nat n) 0 in1 st1 in2 st2 s Hby).
      rewrite !elem_0, <- kernel_iter, Hrun. reflexivity.
    + intros i Hi. rewrite (Hval i Hi), (Hm' i) by lia.
      pose proof (Hby _ _ (Ha i Hi)) as Bx.
      pose proof (Hby _ _ (Hb i Hi)) as By. simpl in Bx, By.
      rewrite (cell_result_exact _ _ Bx By). reflexivity.
Qed.

(** C3.  After a call over [n] elements whose cells are allocated, every
    one of the [n] cells of the output stream, which is the first input
    written in place, has been stored to; stores go to cells of that
    stream only and loads to cells of the two input streams only; every
    cell outside the output stream, those of the second input included
    unless the output shares them, holds what it held before; and no cell
    is allocated or freed.  The state has no other component. *)
Theorem subtract_nowrap_uint8_mutates_output_only in1 in2 n st1 st2 s :
  (∀ i, 0 ≤ i < n → is_Some (heap s !! elem in1 st1 i) ∧
                    is_Some (heap s !! elem in2 st2 i)) →
  ∃ s' t,
    subtract_nowrap_uint8 (in1 :: in2 :: more_args) (n :: more_dims)
      (st1 :: st2 :: more_steps) aux s = Some (tt, s') ∧
    trace s' = trace s ++ t ∧
    (∀ i, 0 ≤ i < n → ∃ v, In (Wr (elem in1 st1 i) v) t) ∧
    (∀ q v, In (Wr q v) t → in_stream in1 st1 n q) ∧
    (∀ q, In (Rd q) t → in_stream in1 st1 n q ∨ in_stream in2 st2 n q) ∧
    (∀ q, ¬ in_stream in1 st1 n q → heap s' !! q = heap s !! q) ∧
    dom (heap s') = dom (heap s).
Proof.
  intros Hv. destruct (kernel_succeeds _ _ _ _ _ _ Hv) as [s' Hrun].
  destruct (kernel_trace _ _ _ _ _ _ _ _ Hrun) as (t & Ht & Hok & Hwr).
  rewrite Forall_forall in Hok.
  exists s', t. split; [exact Hrun|]. split; [exact Ht|].
  split; [exact Hwr|]. split; [|split; [|split]].
  - intros q v Hin. apply list_elem_of_In, Hok in Hin. apply Hin.
  - intros q Hin. apply list_elem_of_In, Hok in Hin. exact Hin.
  - apply (kernel_frame _ _ _ _ _ _ _ _ Hrun).
  - rewrite kernel_iter in Hrun. apply (iter_dom _ _ _ _ _ _ _ _ Hrun).
Qed.

(** C4.  On a heap of bytes, whatever the layout of the two streams,
    every value the call stores lies in [[0, 255]] and does not exceed
    what the cell held before the call, and after the call element [i]
    of the output holds a byte that is at most the original [a[i]], for
    every [i] in [[0, n)]. *)
Theorem subtract_nowrap_uint8_never_exceeds_first_operand
    in1 in2 n st1 st2 (a : Z → Z) s :
  bytes (heap s) →
  reads (heap s) in1 st1 n a →
  (∀ i, 0 ≤ i < n → is_Some (heap s !! elem in2 st2 i)) →
  ∃ s' t,
    subtract_nowrap_uint8 (in1 :: in2 :: more_args) (n :: more_dims)
      (st1 :: st2 :: more_steps) aux s = Some (tt, s') ∧
    trace s' = trace s ++ t ∧
    (∀ q v, In (Wr q v) t →
            0 ≤ v ≤ 255 ∧ ∃ v0, heap s !! q = Some v0 ∧ v ≤ v0) ∧
    (∀ i, 0 ≤ i < n →
          ∃ v, heap s' !! elem in1 st1 i = Some v ∧ 0 ≤ v ≤ 255 ∧ v ≤ a i).
Proof.
  intros Hby Ha Hb.
  destruct (kernel_succeeds in1 in2 n st1 st2 s) as [s' Hrun].
  { intros i Hi. split; [rewrite (Ha i Hi); eauto | apply Hb; exact Hi]. }
  pose proof Hrun as Hit. rewrite kernel_iter in Hit.
  destruct (iter_trace _ _ _ _ _ _ _ _ Hit) as (t & Ht & _ & _).
  destruct (iter_le _ _ _ _ _ _ _ _ Hby Hit) as [Hby' Hle].
  exists s', t. split; [exact Hrun|]. split; [exact Ht|]. split.
  - intros q v Hin.
    destruct (iter_writes_le _ _ _ _ _ _ _ _ _ Hby Hit Ht q v Hin)
      as (Hr & v0 & Hv0 & Hle0).
    split; [lia | eauto].
  - intros i Hi. destruct (Hle _ _ (Ha i Hi)) as (v & Hv & Hva).
    exists v. pose proof (Hby' _ _ Hv) as Bv. simpl in Bv.
    split; [exact Hv | lia].
Qed.

(** C5.  With element count [0] the call returns at once: it succeeds on
    every state, whatever the three pointers and whether or not any cell
    is allocated, and hands back the state it was given, the heap and the
    record of loads and stores both unchanged. *)
Theorem subtract_nowrap_uint8_zero_count_noop in1 in2 st1 st2 s :
  ∃ s', subtract_nowrap_uint8 (in1 :: in2 :: more_args) (0 :: more_dims)
      (st1 :: st2 :: more_steps) aux s = Some (tt, s') ∧
        heap s' = heap s ∧ trace s' = trace s.
Proof.
  exists s. rewrite kernel_iter. simpl. auto.
Qed.

(** C6.  A stream subtracted from itself, both inputs being the same
    stream, is all zeros after the call, at every index. *)
Theorem self_subtraction_all_zeros p st n s :
  (∀ i, 0 ≤ i < n → is_Some (heap s !! elem p st i)) →
  ∃ s', subtract_nowrap_uint8 (p :: p :: more_args) (n :: more_dims)
      (st :: st :: more_steps) aux s = Some (tt, s') ∧
        ∀ i, 0 ≤ i < n → heap s' !! elem p st i = Some 0.
Proof.
  intros Hv. rewrite kernel_iter.
  destruct (iter_self (Z.to_nat n) p st s) as (s' & Hrun & Hz & _).
  - intros j Hj. apply Hv. lia.
  - exists s'. split; [exact Hrun|]. intros i Hi. apply Hz. lia.
Qed.

(** C10.  For every element count [n <= 0], negative counts included, the
    loop test fails at once: the call succeeds on every state without a
    load or a store and returns the state unchanged. *)
Theorem subtract_nowrap_uint8_nonpositive_count_noop in1 in2 n st1 st2 s :
  n ≤ 0 →
  subtract_nowrap_uint8 (in1 :: in2 :: more_args) (n :: more_dims)
      (st1 :: st2 :: more_steps) aux s = Some (tt, s).
Proof.
  intros Hn. unfold subtract_nowrap_uint8; simpl. apply loop_done. exact Hn.
Qed.

(** C7.  A call over a strided view (stride 2: every other element of
    the underlying buffers, [n] elements selected) leaves in the selected
    positions exactly what a call over tightly packed (stride 1) copies
    of the selected elements leaves in the packed output; it loads and
    stores at selected positions only, and every non-selected position
    holds afterwards what it held before. *)
Theorem strided_view_matches_packed_copy
    in1 in2 c1 c2 n (a b : Z → Z) s c :
  reads (heap s) in1 2 n a →
  reads (heap s) in2 2 n b →
  layout_ok in1 2 in2 2 n →
  reads (heap c) c1 1 n a →
  reads (heap c) c2 1 n b →
  layout_ok c1 1 c2 1 n →
  ∃ s' c' t,
    subtract_nowrap_uint8 (in1 :: in2 :: more_args) (n :: more_dims)
      (2 :: 2 :: more_steps) aux s = Some (tt, s') ∧
    subtract_nowrap_uint8 (c1 :: c2 :: more_args) (n :: more_dims)
      (1 :: 1 :: more_steps) aux c = Some (tt, c') ∧
    (∀ i, 0 ≤ i < n → heap s' !! elem in1 2 i = heap c' !! elem c1 1 i) ∧
    trace s' = trace s ++ t ∧
    Forall (access_ok in1 2 in2 2 n) t ∧
    (∀ q, ¬ in_stream in1 2 n q → heap s' !! q = heap s !! q).
Proof.
  intros Ha Hb Hl Hca Hcb Hcl.
  destruct (kernel_values _ _ _ _ _ a b s Ha Hb Hl) as (s' & Hrun & Hval).
  destruct (kernel_values _ _ _ _ _ a b c Hca Hcb Hcl) as (c' & Hcrun & Hcval).
  destruct (kernel_trace _ _ _ _ _ _ _ _ Hrun) as (t & Ht & Hok & _).
  exists s', c', t. split; [exact Hrun|]. split; [exact Hcrun|].
  split; [|split; [exact Ht|split; [exact Hok|]]].
  - intros i Hi. rewrite (Hval i Hi), (Hcval i Hi). reflexivity.
  - apply (kernel_frame _ _ _ _ _ _ _ _ Hrun).
Qed.

(** C9.  The value written at index [i] depends on the pair
    [(a[i], b[i])] only: two calls, on any two states, pointers, strides
    and counts, whose inputs agree at index [i] leave the same value in
    element [i] of their outputs, namely [cell_result] of that pair,
    whatever the streams hold at the other indices. *)
Theorem output_depends_on_same_index_pair_only
    in1 in2 n st1 st2 (a b : Z → Z) s
    in1' in2' n' st1' st2' (a' b' : Z → Z) s' i :
  reads (heap s) in1 st1 n a →
  reads (heap s) in2 st2 n b →
  layout_ok in1 st1 in2 st2 n →
  reads (heap s') in1' st1' n' a' →
  reads (heap s') in2' st2' n' b' →
  layout_ok in1' st1' in2' st2' n' →
  0 ≤ i < n → 0 ≤ i < n' →
  a i = a' i → b i = b' i →
  ∃ r r',
    subtract_nowrap_uint8 (in1 :: in2 :: more_args) (n :: more_dims)
      (st1 :: st2 :: more_steps) aux s = Some (tt, r) ∧
    subtract_nowrap_uint8 (in1' :: in2' :: more_args) (n' :: more_dims)
      (st1' :: st2' :: more_steps) aux s' = Some (tt, r') ∧
    heap r !! elem in1 st1 i = Some (cell_result (a i) (b i)) ∧
    heap r' !! elem in1' st1' i = heap r !! elem in1 st1 i.
Proof.
  intros Ha Hb Hl Ha' Hb' Hl' Hi Hi' Ea Eb.
  destruct (kernel_values _ _ _ _ _ a b s Ha Hb Hl) as (r & Hrun & Hval).
  destruct (kernel_values _ _ _ _ _ a' b' s' Ha' Hb' Hl')
    as (r' & Hrun' & Hval').
  exists r, r'. split; [exact Hrun|]. split; [exact Hrun'|].
  rewrite (Hval i Hi), (Hval' i Hi'), Ea, Eb. auto.
Qed.

End Kernel.

(** ** Registration *)

(** C8, as stated, does not hold: the two initialisers do not both
    register one [uint8] output.  [PyInit__npufunc] passes an output count
    of [0], and the types table both share has two entries, not three. *)
Lemma registration_not_binary_one_output_in_both_paths :
  ¬ (binary_one_output Py3.subtract_nowrap ∧
     binary_one_output Py2.subtract_nowrap).
Proof.
  intros [(_ & Hout & _) _]. vm_compute in Hout. discriminate Hout.
Qed.

(** C8, amended.  Both initialisers register the loop
    [subtract_nowrap_uint8] under the name ["subtract_nowrap"] with
    exactly two inputs and the shared types table of two [uint8] entries.
    In [PyInit__npufunc] the output count is [0]: the table has the
    [ntypes * (nin + nout) = 2] entries that go with it and the declared
    signature is [(uint8, uint8) -> ()], the result being delivered in
    place in the first input. *)
Theorem registration_two_uint8_inputs_no_output :
  (nin Py3.subtract_nowrap = 2 ∧ nin Py2.subtract_nowrap = 2) ∧
  (uf_types Py3.subtract_nowrap = [NPY_UINT8; NPY_UINT8] ∧
   uf_types Py2.subtract_nowrap = [NPY_UINT8; NPY_UINT8]) ∧
  (functions Py3.subtract_nowrap = [subtract_nowrap_uint8] ∧
   functions Py2.subtract_nowrap = [subtract_nowrap_uint8]) ∧
  (Py3.PyInit__npufunc !! "subtract_nowrap"%string = Some Py3.subtract_nowrap ∧
   Py2.init_npufunc !! "subtract_nowrap"%string = Some Py2.subtract_nowrap) ∧
  nout Py3.subtract_nowrap = 0 ∧
  Z.of_nat (length (uf_types Py3.subtract_nowrap)) =
    ntypes Py3.subtract_nowrap *
    (nin Py3.subtract_nowrap + nout Py3.subtract_nowrap) ∧
  signature Py3.subtract_nowrap = ([NPY_UINT8; NPY_UINT8], []).
Proof.
  repeat split; try reflexivity; apply lookup_insert_eq.
Qed.

(** In [init_npufunc] the output count is [1] while the table still has
    two entries, one short of [ntypes * (nin + nout)]: the declared
    signature has no output type to go with the output. *)
Remark init_npufunc_table_one_entry_short :
  nout Py2.subtract_nowrap = 1 ∧
  Z.of_nat (length (uf_types Py2.subtract_nowrap)) + 1 =
    ntypes Py2.subtract_nowrap *
    (nin Py2.subtract_nowrap + nout Py2.subtract_nowrap) ∧
  signature Py2.subtract_nowrap = ([NPY_UINT8; NPY_UINT8], []).
Proof. repeat split; reflexivity. Qed.

(** ** The layout condition cannot be dropped

    Two calls NumPy can make, since both operands are inputs to it. *)

(** Overlapping inputs, [a] one element ahead of [b] in the same buffer
    [[1, 5, 9]]: the second iteration reads the cell the first one has
    overwritten, and leaves [9 - 4], not [9 - 5]. *)
Example overlapping_inputs_read_overwritten_cell :
  (λ r, heap (snd r) !! 102) <$>
    subtract_nowrap_uint8 [101; 100] [2] [1; 1] 0
      (State (<[100 := 1]> (<[101 := 5]> (<[102 := 9]> ∅))) [])
  = Some (Some 5).
Proof. vm_compute. reflexivity. Qed.

(** A broadcast first operand (stride [0]): the one cell is subtracted
    from twice. *)
Example broadcast_first_operand_is_subtracted_repeatedly :
  (λ r, heap (snd r) !! 100) <$>
    subtract_nowrap_uint8 [100; 200] [2] [0; 1] 0
      (State (<[100 := 10]> (<[200 := 3]> (<[201 := 3]> ∅))) [])
  = Some (Some 4).
Proof. vm_compute. reflexivity. Qed.

(** A third pointer, the place of a ufunc's output in [args], is never
    consulted: the buffer at [300] keeps its contents. *)
Example third_pointer_is_ignored :
  (λ r, (heap (snd r) !! 100, heap (snd r) !! 300)) <$>
    subtract_nowrap_uint8 [100; 200; 300] [1] [1; 1; 1] 0 scenario
  = Some (Some 2, Some 9).
Proof. vm_compute. reflexivity. Qed.

(** The four scenarios of the specification. *)
Example scenario_result :
  (λ r, map (λ p, heap (snd r) !! p) [100; 101; 102; 103]) <$>
    subtract_nowrap_uint8 [100; 200] [4] [1; 1] 0 scenario
  = Some [Some 2; Some 0; Some 0; Some 0].
Proof. vm_compute. reflexivity. Qed.

Example scenario_255_minus_0 :
  (λ r, heap (snd r) !! 10) <$>
    subtract_nowrap_uint8 [10; 20] [1] [1; 1] 0
      (State (<[10 := 255]> (<[20 := 0]> ∅)) [])
  = Some (Some 255).
Proof. vm_compute. reflexivity. Qed.

Example scenario_0_minus_0 :
  (λ r, heap (snd r) !! 10) <$>
    subtract_nowrap_uint8 [10; 20] [1] [1; 1] 0
      (State (<[10 := 0]> (<[20 := 0]> ∅)) [])
  = Some (Some 0).
Proof. vm_compute. reflexivity. Qed.

Example scenario_100_100 :
  (λ r, map (λ p, heap (snd r) !! p) [10; 11]) <$>
    subtract_nowrap_uint8 [10; 20] [2] [1; 1] 0
      (State (<[10 := 100]> (<[11 := 100]> (<[20 := 50]> (<[21 := 150]> ∅)))) [])
  = Some [Some 50; Some 0].
Proof. vm_compute. reflexivity. Qed.

(** ** The theorems at the concrete calls *)

Lemma subtract_nowrap_uint8_clamped_difference_witness :
  ∃ s', subtract_nowrap_uint8 [100; 200] [4] [1; 1] 0 scenario = Some (tt, s') ∧
        ∀ i, 0 ≤ i < 4 →
             heap s' !! elem 100 1 i =
               Some (if scenario_a i >? scenario_b i
                     then scenario_a i - scenario_b i else 0) ∧
             0 ≤ (if scenario_a i >? scenario_b i
                  then scenario_a i - scenario_b i else 0) ≤ 255.
Proof.
  apply (subtract_nowrap_uint8_clamped_difference [] [] [] 0
           100 200 4 1 1 scenario_a scenario_b scenario);
    [solve_bytes | solve_reads | solve_reads | solve_layout].
Defined.

Lemma aliased_output_matches_separate_buffer_witness :
  ∃ s' m',
    subtract_nowrap_uint8 [100; 200] [4] [1; 1] 0 scenario = Some (tt, s') ∧
    Spec.apply (Spec.Build_ElementStream 100 1) (Spec.Build_ElementStream 200 1)
      (Spec.Build_ElementStream 100 1) 4 (heap scenario) = Some (heap s') ∧
    Spec.apply (Spec.Build_ElementStream 100 1) (Spec.Build_ElementStream 200 1)
      (Spec.Build_ElementStream 300 1) 4 (heap scenario) = Some m' ∧
    ∀ i, 0 ≤ i < 4 →
         heap s' !! elem 100 1 i = m' !! Spec.cell (Spec.Build_ElementStream 300 1) i.
Proof.
  apply (aliased_output_matches_separate_buffer [] [] [] 0
           100 200 4 1 1 (Spec.Build_ElementStream 300 1)
           scenario_a scenario_b scenario);
    [solve_bytes | solve_reads | solve_reads | solve_layout | | solve_allocated].
  split; intros i j Hi Hj; unfold Spec.cell; simpl; lia.
Defined.

Lemma subtract_nowrap_uint8_mutates_output_only_witness :
  ∃ s' t,
    subtract_nowrap_uint8 [100; 200] [4] [1; 1] 0 scenario = Some (tt, s') ∧
    trace s' = trace scenario ++ t ∧
    (∀ i, 0 ≤ i < 4 → ∃ v, In (Wr (elem 100 1 i) v) t) ∧
    (∀ q v, In (Wr q v) t → in_stream 100 1 4 q) ∧
    (∀ q, In (Rd q) t → in_stream 100 1 4 q ∨ in_stream 200 1 4 q) ∧
    (∀ q, ¬ in_stream 100 1 4 q → heap s' !! q = heap scenario !! q) ∧
    dom (heap s') = dom (heap scenario).
Proof.
  apply (subtract_nowrap_uint8_mutates_output_only [] [] [] 0
           100 200 4 1 1 scenario).
  solve_allocated.
Defined.

Lemma subtract_nowrap_uint8_never_exceeds_first_operand_witness :
  ∃ s' t,
    subtract_nowrap_uint8 [100; 200] [4] [1; 1] 0 scenario = Some (tt, s') ∧
    trace s' = trace scenario ++ t ∧
    (∀ q v, In (Wr q v) t →
            0 ≤ v ≤ 255 ∧ ∃ v0, heap scenario !! q = Some v0 ∧ v ≤ v0) ∧
    (∀ i, 0 ≤ i < 4 →
          ∃ v, heap s' !! elem 100 1 i = Some v ∧ 0 ≤ v ≤ 255 ∧
               v ≤ scenario_a i).
Proof.
  apply (subtract_nowrap_uint8_never_exceeds_first_operand [] [] [] 0
           100 200 4 1 1 scenario_a scenario);
    [solve_bytes | solve_reads | solve_allocated].
Defined.

Lemma self_subtraction_all_zeros_witness :
  ∃ s', subtract_nowrap_uint8 [100; 100] [4] [1; 1] 0 scenario = Some (tt, s') ∧
        ∀ i, 0 ≤ i < 4 → heap s' !! elem 100 1 i = Some 0.
Proof.
  apply (self_subtraction_all_zeros [] [] [] 0 100 1 4 scenario).
  solve_allocated.
Defined.

Lemma strided_view_matches_packed_copy_witness :
  ∃ s' c' t,
    subtract_nowrap_uint8 [400; 401] [4] [2; 2] 0 interleaved = Some (tt, s') ∧
    subtract_nowrap_uint8 [100; 200] [4] [1; 1] 0 scenario = Some (tt, c') ∧
    (∀ i, 0 ≤ i < 4 → heap s' !! elem 400 2 i = heap c' !! elem 100 1 i) ∧
    trace s' = trace interleaved ++ t ∧
    Forall (access_ok 400 2 401 2 4) t ∧
    (∀ q, ¬ in_stream 400 2 4 q → heap s' !! q = heap interleaved !! q).
Proof.
  apply (strided_view_matches_packed_copy [] [] [] 0
           400 401 100 200 4 scenario_a scenario_b interleaved scenario);
    [solve_reads | solve_reads | solve_layout
    | solve_reads | solve_reads | solve_layout].
Defined.

Lemma output_depends_on_same_index_pair_only_witness :
  ∃ r r',
    subtract_nowrap_uint8 [100; 200] [4] [1; 1] 0 scenario = Some (tt, r) ∧
    subtract_nowrap_uint8 [500; 600] [2] [1; 1] 0 other = Some (tt, r') ∧
    heap r !! elem 100 1 1 =
      Some (cell_result (scenario_a 1) (scenario_b 1)) ∧
    heap r' !! elem 500 1 1 = heap r !! elem 100 1 1.
Proof.
  apply (output_depends_on_same_index_pair_only [] [] [] 0
           100 200 4 1 1 scenario_a scenario_b scenario
           500 600 2 1 1 other_a other_b other 1);
    [solve_reads | solve_reads | solve_layout
    | solve_reads | solve_reads | solve_layout
    | lia | lia | reflexivity | reflexivity ].
Defined.

Lemma subtract_nowrap_uint8_nonpositive_count_noop_witness :
  subtract_nowrap_uint8 [100; 200] [-3] [1; 1] 0 scenario = Some (tt, scenario).
Proof.
  apply (subtract_nowrap_uint8_nonpositive_count_noop [] [] [] 0
           100 200 (-3) 1 1 scenario).
  lia.
Defined.

(** ** More on runs of [iter] *)

Section IterMore.

Variables s1 s2 : Z.

(** A run that completes has found every cell of both streams
    allocated. *)
Lemma iter_allocated k : ∀ in1 in2 s u s',
  iter k in1 in2 s1 s2 s = Some (u, s') →
  ∀ j, 0 ≤ j < Z.of_nat k →
       is_Some (heap s !! elem in1 s1 j) ∧ is_Some (heap s !! elem in2 s2 j).
Proof.
  induction k as [|k IH]; intros in1 in2 s u s' H j Hj; simpl in H; [lia|].
  destruct (body in1 in2 s) as [[u1 t]|] eqn:Hb; [|discriminate].
  apply body_inv in Hb as (x & y & Hx & Hy & ->).
  destruct (decide (j = 0)) as [->|Hne].
  - rewrite !elem_0. eauto.
  - destruct (IH _ _ _ _ _ H (j - 1)) as [Ha Hb]; [lia|].
    rewrite !elem_shift in Ha, Hb. replace (j - 1 + 1) with j in Ha, Hb by lia.
    simpl in Ha, Hb. rewrite lookup_insert_is_Some in Ha, Hb.
    split; [destruct Ha as [<-|[_ Ha]] | destruct Hb as [<-|[_ Hb]]]; eauto.
Qed.

(** [a + b] iterations are [a] iterations followed by [b] more from the
    advanced pointers. *)
Lemma iter_app a b : ∀ in1 in2 s,
  iter (a + b) in1 in2 s1 s2 s =
    match iter a in1 in2 s1 s2 s with
    | Some (_, s') =>
        iter b (elem in1 s1 (Z.of_nat a)) (elem in2 s2 (Z.of_nat a)) s1 s2 s'
    | None => None
    end.
Proof.
  induction a as [|a IH]; intros in1 in2 s; simpl.
  - rewrite !elem_0. reflexivity.
  - destruct (body in1 in2 s) as [[u t]|]; [|reflexivity].
    rewrite IH, !elem_shift.
    replace (Z.of_nat a + 1) with (Z.pos (Pos.of_succ_nat a)) by lia.
    reflexivity.
Qed.

(** A cell whose contents changed is a cell of the first stream. *)
Lemma iter_changed k : ∀ in1 in2 s u s',
  iter k in1 in2 s1 s2 s = Some (u, s') →
  ∀ q, heap s' !! q = heap s !! q ∨ in_stream in1 s1 (Z.of_nat k) q.
Proof.
  induction k as [|k IH]; intros in1 in2 s u s' H q; simpl in H.
  - left. congruence.
  - destruct (body in1 in2 s) as [[u1 t]|] eqn:Hb; [|discriminate].
    apply body_inv in Hb as (x & y & Hx & Hy & ->).
    destruct (IH _ _ _ _ _ H q) as [E|E].
    + destruct (decide (in1 = q)) as [<-|Hne].
      * right. apply in_stream_first.
      * left. rewrite E. simpl. apply lookup_insert_ne. exact Hne.
    + right. apply in_stream_shift. exact E.
Qed.

Lemma body_trace_stores in1 in2 x y :
  store_addresses (body_trace in1 in2 x y) = [in1] ∧
  (3 ≤ length (body_trace in1 in2 x y) ≤ 5)%nat.
Proof.
  unfold body_trace. destruct (x >? y); simpl; split; (reflexivity || lia).
Qed.

Lemma seqZ_0_S k :
  seqZ 0 (Z.of_nat (S k)) = 0 :: ((λ j, j + 1) <$> seqZ 0 (Z.of_nat k)).
Proof.
  rewrite seqZ_cons by lia. f_equal.
  replace (Z.pred (Z.of_nat (S k))) with (Z.of_nat k) by lia.
  replace (Z.succ 0) with (1 + 0) by lia.
  rewrite <- fmap_add_seqZ. apply list_fmap_ext. intros _ j _. lia.
Qed.

(** The stores of a run, in program order, go to elements [0], [1], ...,
    [k-1] of the first stream, one each, and every iteration makes three
    to five accesses. *)
Lemma iter_stores k : ∀ in1 in2 s u s',
  iter k in1 in2 s1 s2 s = Some (u, s') →
  ∃ t, trace s' = trace s ++ t ∧
       store_addresses t = elem in1 s1 <$> seqZ 0 (Z.of_nat k) ∧
       (3 * k ≤ length t ≤ 5 * k)%nat.
Proof.
  induction k as [|k IH]; intros in1 in2 s u s' H; simpl in H.
  - inversion H; subst. exists []. rewrite app_nil_r.
    split; [reflexivity|]. split; [reflexivity | simpl; lia].
  - destruct (body in1 in2 s) as [[u1 t1]|] eqn:Hb; [|discriminate].
    apply body_inv in Hb as (x & y & Hx & Hy & ->).
    destruct (IH _ _ _ _ _ H) as (t & Ht & Hst & Hlen). simpl in Ht.
    destruct (body_trace_stores in1 in2 x y) as [Hb1 Hb2].
    exists (body_trace in1 in2 x y ++ t). rewrite app_assoc.
    split; [exact Ht|]. split.
    + unfold store_addresses in *. rewrite omap_app, Hb1, Hst.
      rewrite seqZ_0_S. simpl. rewrite elem_0. f_equal.
      rewrite <- list_fmap_compose. apply list_fmap_ext.
      intros _ j _. simpl. apply elem_shift.
    + rewrite length_app. lia.
Qed.

(** A stream of zeros subtracted: every store writes back what the cell
    held, so the heap does not change, whatever the layout. *)
Lemma iter_zero k : ∀ in1 in2 s,
  bytes (heap s) →
  (∀ j, 0 ≤ j < Z.of_nat k →
        is_Some (heap s !! elem in1 s1 j) ∧ heap s !! elem in2 s2 j = Some 0) →
  ∃ s', iter k in1 in2 s1 s2 s = Some (tt, s') ∧ heap s' = heap s.
Proof.
  induction k as [|k IH]; intros in1 in2 s Hby Hz; simpl.
  - eauto.
  - destruct (Hz 0) as [[x Hx] Hy]; [lia|]. rewrite !elem_0 in *.
    rewrite (body_eq _ _ _ _ _ Hx Hy).
    pose proof (Hby _ _ Hx) as Bx. simpl in Bx.
    assert (Ex : cell_result x 0 = x).
    { rewrite cell_result_exact by lia.
      destruct (x >? 0) eqn:E; [lia|]. rewrite Z.gtb_ltb, Z.ltb_ge in E. lia. }
    rewrite Ex, (insert_id _ _ _ Hx).
    destruct (IH (in1 + s1) (in2 + s2)
                (State (heap s) (trace s ++ body_trace in1 in2 x 0)))
      as (s' & Hrun & Hh).
    + exact Hby.
    + intros j Hj. rewrite !elem_shift. simpl. apply Hz. lia.
    + exists s'. split; [exact Hrun | exact Hh].
Qed.

End IterMore.

(** ** A broadcast first operand *)

Lemma sum_stream_S f k :
  sum_stream f (Z.of_nat (S k)) =
  f 0 + sum_stream (λ j, f (j + 1)) (Z.of_nat k).
Proof.
  unfold sum_stream. rewrite seqZ_0_S. simpl.
  rewrite <- list_fmap_compose. reflexivity.
Qed.

Lemma sum_stream_to_nat f n :
  sum_stream f (Z.of_nat (Z.to_nat n)) = sum_stream f n.
Proof. unfold sum_stream, seqZ. rewrite Nat2Z.id. reflexivity. Qed.

Lemma sum_stream_nonneg k : ∀ f,
  (∀ j, 0 ≤ j < Z.of_nat k → 0 ≤ f j) → 0 ≤ sum_stream f (Z.of_nat k).
Proof.
  induction k as [|k IH]; intros f Hf.
  - unfold sum_stream. rewrite seqZ_nil by lia. simpl. lia.
  - rewrite sum_stream_S.
    pose proof (Hf 0 ltac:(lia)).
    pose proof (IH (λ j, f (j + 1)) ltac:(intros j Hj; apply Hf; lia)).
    lia.
Qed.

(** With stride [0] for the first operand every iteration subtracts from
    the same cell, which ends up holding the original value less the sum
    of the second stream, clamped at zero. *)
Lemma iter_broadcast s2 k : ∀ in1 in2 s a (b : Z → Z),
  bytes (heap s) →
  heap s !! in1 = Some a →
  (∀ j, 0 ≤ j < Z.of_nat k →
        heap s !! elem in2 s2 j = Some (b j) ∧ elem in2 s2 j ≠ in1) →
  ∃ s', iter k in1 in2 0 s2 s = Some (tt, s') ∧
        heap s' !! in1 = Some (Z.max 0 (a - sum_stream b (Z.of_nat k))).
Proof.
  induction k as [|k IH]; intros in1 in2 s a b Hby Ha Hb.
  - simpl. eexists; split; [reflexivity|].
    pose proof (Hby _ _ Ha) as Ba. simpl in Ba.
    unfold sum_stream. rewrite seqZ_nil by lia. simpl.
    rewrite Ha. f_equal. lia.
  - cbn [iter]. destruct (Hb 0) as [Hb0 _]; [lia|]. rewrite elem_0 in Hb0.
    rewrite (body_eq _ _ _ _ _ Ha Hb0), Z.add_0_r.
    pose proof (Hby _ _ Ha) as Ba. pose proof (Hby _ _ Hb0) as Bb.
    simpl in Ba, Bb.
    set (t := State _ _).
    assert (Hnn : 0 ≤ sum_stream (λ j, b (j + 1)) (Z.of_nat k)).
    { apply sum_stream_nonneg. intros j Hj.
      destruct (Hb (j + 1)) as [Hj1 _]; [lia|].
      pose proof (Hby _ _ Hj1) as B. simpl in B. lia. }
    destruct (IH in1 (in2 + s2) t (cell_result a (b 0)) (λ j, b (j + 1)))
      as (s' & Hrun & Hval).
    + subst t; simpl. apply map_Forall_insert_2;
        [apply cell_result_range | exact Hby].
    + subst t; simpl. apply lookup_insert_eq.
    + intros j Hj. rewrite elem_shift. destruct (Hb (j + 1)) as [Hj1 Hne]; [lia|].
      split; [|exact Hne]. subst t; simpl.
      rewrite lookup_insert_ne by congruence. exact Hj1.
    + exists s'. split; [exact Hrun|]. rewrite Hval, sum_stream_S. f_equal.
      rewrite cell_result_exact by assumption.
      destruct (a >? b 0) eqn:E;
        [apply Z.gtb_lt in E | rewrite Z.gtb_ltb, Z.ltb_ge in E]; lia.
Qed.

Lemma cell_result_twice a b c :
  0 ≤ a < 256 → 0 ≤ b < 256 → 0 ≤ c < 256 →
  cell_result (cell_result a b) c = Z.max 0 (a - b - c).
Proof.
  intros Ha Hb Hc. pose proof (cell_result_range a b).
  rewrite (cell_result_exact (cell_result a b) c) by assumption.
  rewrite (cell_result_exact a b) by assumption.
  destruct (a >? b) eqn:E1;
    [apply Z.gtb_lt in E1 | rewrite Z.gtb_ltb, Z.ltb_ge in E1].
  - destruct (a - b >? c) eqn:E2;
      [apply Z.gtb_lt in E2 | rewrite Z.gtb_ltb, Z.ltb_ge in E2]; lia.
  - destruct (0 >? c) eqn:E2;
      [apply Z.gtb_lt in E2 | rewrite Z.gtb_ltb, Z.ltb_ge in E2]; lia.
Qed.

(** ** Further properties of the kernel *)

Section KernelMore.

Variables (more_args more_dims more_steps : list Z) (aux : Z).

Lemma kernel_changed in1 in2 n st1 st2 s u s' :
  subtract_nowrap_uint8 (in1 :: in2 :: more_args) (n :: more_dims)
      (st1 :: st2 :: more_steps) aux s = Some (u, s') →
  ∀ q, heap s' !! q = heap s !! q ∨ in_stream in1 st1 n q.
Proof.
  rewrite kernel_iter. intros H q.
  destruct (iter_changed _ _ _ _ _ _ _ _ H q) as [E|E]; [left; exact E|].
  right. apply in_stream_to_nat. exact E.
Qed.

(** X1.  A call completes exactly when the [n] cells of each of the two
    streams are allocated: these cells are all the memory it needs, and
    it needs every one of them. *)
Theorem subtract_nowrap_uint8_completes_iff_allocated in1 in2 n st1 st2 s :
  (∃ s', subtract_nowrap_uint8 (in1 :: in2 :: more_args) (n :: more_dims)
           (st1 :: st2 :: more_steps) aux s = Some (tt, s')) ↔
  (∀ i, 0 ≤ i < n → is_Some (heap s !! elem in1 st1 i) ∧
                    is_Some (heap s !! elem in2 st2 i)).
Proof.
  split.
  - intros [s' H] i Hi. rewrite kernel_iter in H.
    apply (iter_allocated _ _ _ _ _ _ _ _ H). lia.
  - apply kernel_succeeds.
Qed.

(** X2.  On a heap of bytes and for every layout of the two streams,
    overlapping and broadcast ones included, the call is the single pass
    [Spec.apply] with its output aliased to the first stream: it fails
    when that pass fails and otherwise ends with the same heap.  The
    conversion to [npy_uint8] never changes a value the loop stores. *)
Theorem subtract_nowrap_uint8_is_in_place_pass in1 in2 n st1 st2 s :
  bytes (heap s) →
  (λ r, heap (snd r)) <$>
    subtract_nowrap_uint8 (in1 :: in2 :: more_args) (n :: more_dims)
      (st1 :: st2 :: more_steps) aux s =
  Spec.apply (Spec.Build_ElementStream in1 st1)
    (Spec.Build_ElementStream in2 st2) (Spec.Build_ElementStream in1 st1)
    n (heap s).
Proof.
  intros Hby. rewrite kernel_iter. unfold Spec.apply.
  rewrite <- (iter_apply_aliased (Z.to_nat n) 0 in1 st1 in2 st2 s Hby).
  rewrite !elem_0. reflexivity.
Qed.

(** X3.  A call over [n + m] elements is a call over the first [n]
    followed by a call over the remaining [m] from the advanced pointers:
    same failure, same final heap, same accesses in the same order. *)
Theorem subtract_nowrap_uint8_in_two_chunks in1 in2 n m st1 st2 s :
  0 ≤ n → 0 ≤ m →
  subtract_nowrap_uint8 (in1 :: in2 :: more_args) (n + m :: more_dims)
      (st1 :: st2 :: more_steps) aux s =
  match subtract_nowrap_uint8 (in1 :: in2 :: more_args) (n :: more_dims)
          (st1 :: st2 :: more_steps) aux s with
  | Some (_, s') =>
      subtract_nowrap_uint8
        (elem in1 st1 n :: elem in2 st2 n :: more_args) (m :: more_dims)
        (st1 :: st2 :: more_steps) aux s'
  | None => None
  end.
Proof.
  intros Hn Hm. rewrite !kernel_iter, Z2Nat.inj_add, iter_app by assumption.
  destruct (iter (Z.to_nat n) in1 in2 st1 st2 s) as [[u s']|]; [|reflexivity].
  rewrite kernel_iter, Z2Nat.id by assumption. reflexivity.
Qed.

(** X4.  A call that has its cells allocated makes exactly one store per
    element, in ascending index order (the store addresses, in program
    order, are elements [0], [1], ..., [n-1] of the first stream), and
    between three and five memory accesses per element. *)
Theorem subtract_nowrap_uint8_single_ascending_pass in1 in2 n st1 st2 s :
  (∀ i, 0 ≤ i < n → is_Some (heap s !! elem in1 st1 i) ∧
                    is_Some (heap s !! elem in2 st2 i)) →
  ∃ s' t,
    subtract_nowrap_uint8 (in1 :: in2 :: more_args) (n :: more_dims)
      (st1 :: st2 :: more_steps) aux s = Some (tt, s') ∧
    trace s' = trace s ++ t ∧
    store_addresses t = elem in1 st1 <$> seqZ 0 n ∧
    (3 * Z.to_nat n ≤ length t ≤ 5 * Z.to_nat n)%nat.
Proof.
  intros Hv.
  destruct (kernel_succeeds more_args more_dims more_steps aux _ _ _ _ _ _ Hv)
    as [s' Hrun].
  pose proof Hrun as Hit. rewrite kernel_iter in Hit.
  destruct (iter_stores _ _ _ _ _ _ _ _ Hit) as (t & Ht & Hst & Hlen).
  exists s', t. split; [exact Hrun|]. split; [exact Ht|]. split; [|exact Hlen].
  rewrite Hst. unfold seqZ. rewrite Nat2Z.id. reflexivity.
Qed.

(** X5.  A broadcast first operand (stride [0]) whose cell is not a cell
    of the second stream: the [n] iterations all subtract from that one
    cell, which ends up holding its original value less the sum of the
    [n] elements of the second stream, clamped at zero. *)
Theorem broadcast_first_operand_accumulates in1 in2 n st2 a (b : Z → Z) s :
  bytes (heap s) →
  heap s !! in1 = Some a →
  (∀ j, 0 ≤ j < n →
        heap s !! elem in2 st2 j = Some (b j) ∧ elem in2 st2 j ≠ in1) →
  ∃ s',
    subtract_nowrap_uint8 (in1 :: in2 :: more_args) (n :: more_dims)
      (0 :: st2 :: more_steps) aux s = Some (tt, s') ∧
    heap s' !! in1 = Some (Z.max 0 (a - sum_stream b n)).
Proof.
  intros Hby Ha Hb. rewrite kernel_iter.
  destruct (iter_broadcast st2 (Z.to_nat n) in1 in2 s a b Hby Ha)
    as (s' & Hrun & Hval).
  - intros j Hj. apply Hb. lia.
  - exists s'. split; [exact Hrun|]. rewrite Hval, sum_stream_to_nat.
    reflexivity.
Qed.

(** X7.  Subtracting a stream of zeros leaves the whole heap as it was,
    whatever the layout of the two streams. *)
Theorem subtracting_zeros_leaves_heap in1 in2 n st1 st2 s :
  bytes (heap s) →
  (∀ i, 0 ≤ i < n → is_Some (heap s !! elem in1 st1 i) ∧
                    heap s !! elem in2 st2 i = Some 0) →
  ∃ s',
    subtract_nowrap_uint8 (in1 :: in2 :: more_args) (n :: more_dims)
      (st1 :: st2 :: more_steps) aux s = Some (tt, s') ∧
    heap s' = heap s.
Proof.
  intros Hby Hz. rewrite kernel_iter. apply iter_zero; [exact Hby|].
  intros j Hj. apply Hz. lia.
Qed.

Lemma layout_of_apart p1 st1 p2 st2 n :
  distinct_cells p1 st1 n → apart p1 st1 p2 st2 n → layout_ok p1 st1 p2 st2 n.
Proof.
  intros Hd Ha. split; [exact Hd|]. intros i j Hij Hj. apply Ha; lia.
Qed.

Lemma reads_outside in1 in2 n st1 st2 s u s' p st (f : Z → Z) :
  subtract_nowrap_uint8 (in1 :: in2 :: more_args) (n :: more_dims)
      (st1 :: st2 :: more_steps) aux s = Some (u, s') →
  apart in1 st1 p st n →
  reads (heap s) p st n f → reads (heap s') p st n f.
Proof.
  intros Hrun Hap Hf i Hi.
  rewrite (kernel_frame _ _ _ _ _ _ _ _ _ _ _ _ Hrun); [apply Hf; exact Hi|].
  intros (j & Hj & E). apply (Hap j i Hj Hi). symmetry. exact E.
Qed.

(** X6.  Two streams subtracted one after the other from a stream they
    do not share cells with: each element ends as [a[i] - b[i] - c[i]]
    clamped at zero, and the final heap is the same whichever of the two
    is subtracted first. *)
Theorem successive_subtractions_commute
    in1 in2 in3 n st1 st2 st3 (a b c : Z → Z) s :
  bytes (heap s) →
  reads (heap s) in1 st1 n a →
  reads (heap s) in2 st2 n b →
  reads (heap s) in3 st3 n c →
  distinct_cells in1 st1 n →
  apart in1 st1 in2 st2 n →
  apart in1 st1 in3 st3 n →
  ∃ s1 s2 r1 r2,
    subtract_nowrap_uint8 (in1 :: in2 :: more_args) (n :: more_dims)
      (st1 :: st2 :: more_steps) aux s = Some (tt, s1) ∧
    subtract_nowrap_uint8 (in1 :: in3 :: more_args) (n :: more_dims)
      (st1 :: st3 :: more_steps) aux s1 = Some (tt, s2) ∧
    subtract_nowrap_uint8 (in1 :: in3 :: more_args) (n :: more_dims)
      (st1 :: st3 :: more_steps) aux s = Some (tt, r1) ∧
    subtract_nowrap_uint8 (in1 :: in2 :: more_args) (n :: more_dims)
      (st1 :: st2 :: more_steps) aux r1 = Some (tt, r2) ∧
    (∀ i, 0 ≤ i < n →
          heap s2 !! elem in1 st1 i = Some (Z.max 0 (a i - b i - c i))) ∧
    heap r2 = heap s2.
Proof.
  intros Hby Ha Hb Hc Hd Hab Hac.
  pose proof (layout_of_apart _ _ _ _ _ Hd Hab) as Lb.
  pose proof (layout_of_apart _ _ _ _ _ Hd Hac) as Lc.
  destruct (kernel_values more_args more_dims more_steps aux
              _ _ _ _ _ a b s Ha Hb Lb) as (s1 & R1 & V1).
  destruct (kernel_values more_args more_dims more_steps aux
              _ _ _ _ _ _ c s1 V1 (reads_outside _ _ _ _ _ _ _ _ _ _ _ R1 Hac Hc) Lc)
    as (s2 & R2 & V2).
  destruct (kernel_values more_args more_dims more_steps aux
              _ _ _ _ _ a c s Ha Hc Lc) as (r1 & Q1 & W1).
  destruct (kernel_values more_args more_dims more_steps aux
              _ _ _ _ _ _ b r1 W1 (reads_outside _ _ _ _ _ _ _ _ _ _ _ Q1 Hab Hb) Lb)
    as (r2 & Q2 & W2).
  assert (Hs2 : ∀ i, 0 ≤ i < n →
            heap s2 !! elem in1 st1 i = Some (Z.max 0 (a i - b i - c i))).
  { intros i Hi. rewrite (V2 i Hi). f_equal.
    pose proof (Hby _ _ (Ha i Hi)). pose proof (Hby _ _ (Hb i Hi)).
    pose proof (Hby _ _ (Hc i Hi)). apply cell_result_twice; assumption. }
  assert (Hr2 : ∀ i, 0 ≤ i < n →
            heap r2 !! elem in1 st1 i = Some (Z.max 0 (a i - b i - c i))).
  { intros i Hi. rewrite (W2 i Hi). f_equal.
    pose proof (Hby _ _ (Ha i Hi)). pose proof (Hby _ _ (Hb i Hi)).
    pose proof (Hby _ _ (Hc i Hi)).
    rewrite cell_result_twice by assumption. f_equal. lia. }
  exists s1, s2, r1, r2. repeat (split; [assumption|]).
  apply map_eq. intros q.
  assert (Hin : in_stream in1 st1 n q → heap r2 !! q = heap s2 !! q).
  { intros (i & Hi & ->). rewrite (Hs2 i Hi), (Hr2 i Hi). reflexivity. }
  destruct (kernel_changed _ _ _ _ _ _ _ _ R1 q) as [E1|E1]; [|auto].
  destruct (kernel_changed _ _ _ _ _ _ _ _ R2 q) as [E2|E2]; [|auto].
  destruct (kernel_changed _ _ _ _ _ _ _ _ Q1 q) as [F1|F1]; [|auto].
  destruct (kernel_changed _ _ _ _ _ _ _ _ Q2 q) as [F2|F2]; [|auto].
  congruence.
Qed.

Lemma elem_rev p st n i : elem (elem p st (n - 1)) (- st) i = elem p st (n - 1 - i).
Proof. unfold elem. lia. Qed.

(** X8.  Traversal order does not matter: on streams whose cells coincide
    at most at equal indices, the call that walks both streams backwards,
    from their last elements with the negated strides, ends with the same
    heap as the forward call. *)
Theorem reversed_views_same_heap in1 in2 n st1 st2 (a b : Z → Z) s :
  reads (heap s) in1 st1 n a →
  reads (heap s) in2 st2 n b →
  distinct_cells in1 st1 n →
  no_cross_overlap in1 st1 in2 st2 n →
  ∃ s' r',
    subtract_nowrap_uint8 (in1 :: in2 :: more_args) (n :: more_dims)
      (st1 :: st2 :: more_steps) aux s = Some (tt, s') ∧
    subtract_nowrap_uint8
      (elem in1 st1 (n - 1) :: elem in2 st2 (n - 1) :: more_args)
      (n :: more_dims) (- st1 :: - st2 :: more_steps) aux s = Some (tt, r') ∧
    heap r' = heap s'.
Proof.
  intros Ha Hb Hd Hx.
  destruct (kernel_values more_args more_dims more_steps aux
              in1 in2 n st1 st2 a b s Ha Hb) as (s' & R & V).
  { split; [exact Hd|]. intros i j Hij Hj. apply Hx; lia. }
  destruct (kernel_values more_args more_dims more_steps aux
              (elem in1 st1 (n - 1)) (elem in2 st2 (n - 1)) n (- st1) (- st2)
              (λ i, a (n - 1 - i)) (λ i, b (n - 1 - i)) s) as (r' & Q & W).
  { intros i Hi. rewrite elem_rev. apply Ha. lia. }
  { intros i Hi. rewrite elem_rev. apply Hb. lia. }
  { split; intros i j Hij Hj; rewrite !elem_rev.
    - intros E. apply (Hd (n - 1 - j) (n - 1 - i)); [lia | lia | congruence].
    - apply Hx; lia. }
  exists s', r'. split; [exact R|]. split; [exact Q|].
  apply map_eq. intros q.
  assert (Hin : in_stream in1 st1 n q → heap r' !! q = heap s' !! q).
  { intros (i & Hi & ->). rewrite (V i Hi).
    specialize (W (n - 1 - i) ltac:(lia)). rewrite elem_rev in W.
    replace (n - 1 - (n - 1 - i)) with i in W by lia. exact W. }
  destruct (kernel_changed _ _ _ _ _ _ _ _ R q) as [E|E]; [|auto].
  destruct (kernel_changed _ _ _ _ _ _ _ _ Q q) as [F|(i & Hi & ->)].
  - congruence.
  - apply Hin. exists (n - 1 - i). rewrite elem_rev. split; [lia | reflexivity].
Qed.

End KernelMore.

(** ** Two views of one buffer, one element apart *)

Lemma elem_inj p st i j : st ≠ 0 → elem p st i = elem p st j → i = j.
Proof.
  intros Hst E. unfold elem in E.
  assert (H : (i - j) * st = 0) by lia.
  apply Z.mul_eq_0 in H. lia.
Qed.

Lemma elem_elem_1 p st i : elem (elem p st 1) st i = elem p st (i + 1).
Proof. unfold elem. lia. Qed.

Lemma running_from_shift r x j :
  running_from r x (S j) =
  running_from (if x 1 >? r then x 1 - r else 0) (λ i, x (i + 1)) j.
Proof.
  induction j as [|j IH]; [reflexivity|].
  change (running_from r x (S (S j))) with
    (let q := running_from r x (S j) in
     if x (Z.of_nat (S (S j))) >? q then x (Z.of_nat (S (S j))) - q else 0).
  rewrite IH. cbn [running_from].
  replace (Z.of_nat (S j) + 1) with (Z.of_nat (S (S j))) by lia.
  reflexivity.
Qed.

(** The first stream one element ahead of the second in the same buffer:
    each iteration reads, as second operand, what the iteration before
    it stored. *)
Lemma iter_running st k : ∀ p s r (x : Z → Z),
  st ≠ 0 →
  bytes (heap s) →
  heap s !! p = Some r →
  (∀ j, 1 ≤ j ≤ Z.of_nat k → heap s !! elem p st j = Some (x j)) →
  ∃ s', iter k (p + st) p st st s = Some (tt, s') ∧
        ∀ j, (1 ≤ j ≤ k)%nat →
             heap s' !! elem p st (Z.of_nat j) = Some (running_from r x j).
Proof.
  induction k as [|k IH]; intros p s r x Hst Hby Hr Hx.
  - simpl. eexists; split; [reflexivity|]. intros j Hj; lia.
  - cbn [iter].
    pose proof (Hx 1 ltac:(lia)) as H1.
    replace (elem p st 1) with (p + st) in H1 by (unfold elem; lia).
    rewrite (body_eq _ _ _ _ _ H1 Hr).
    pose proof (Hby _ _ H1) as B1. pose proof (Hby _ _ Hr) as Br.
    simpl in B1, Br.
    rewrite cell_result_exact by assumption.
    set (r' := if x 1 >? r then x 1 - r else 0).
    assert (Br' : 0 ≤ r' < 256) by (subst r'; destruct (x 1 >? r) eqn:E;
      [apply Z.gtb_lt in E|]; lia).
    set (t := State _ _).
    destruct (IH (p + st) t r' (λ i, x (i + 1)) Hst) as (s' & Hrun & Hval).
    + subst t; simpl. apply map_Forall_insert_2; [exact Br' | exact Hby].
    + subst t; simpl. apply lookup_insert_eq.
    + intros j Hj. rewrite elem_shift. subst t; simpl.
      rewrite lookup_insert_ne; [apply Hx; lia|].
      replace (p + st) with (elem p st 1) by (unfold elem; lia).
      intros E. apply elem_inj in E; [lia | exact Hst].
    + exists s'. split; [exact Hrun|]. intros j Hj.
      destruct j as [|[|j]]; [lia| |].
      * replace (elem p st (Z.of_nat 1)) with (p + st) by (unfold elem; lia).
        rewrite (iter_frame _ _ _ _ _ _ _ _ Hrun).
        -- subst t; simpl. rewrite lookup_insert_eq. reflexivity.
        -- intros i Hi. rewrite !elem_shift.
           replace (p + st) with (elem p st 1) by (unfold elem; lia).
           intros E. apply elem_inj in E; [lia | exact Hst].
      * specialize (Hval (S j) ltac:(lia)). rewrite elem_shift in Hval.
        replace (Z.of_nat (S j) + 1) with (Z.of_nat (S (S j))) in Hval by lia.
        rewrite Hval, (running_from_shift r x (S j)). reflexivity.
Qed.

Section Shifted.

Variables (more_args more_dims more_steps : list Z) (aux : Z).

(** X9.  The second operand one element ahead of the first in the same
    buffer (nonzero stride): the call leaves in element [i] the clamped
    difference [x[i] - x[i+1]] of the buffer's original neighbours, and
    does not touch the last element. *)
Theorem forward_shifted_view_adjacent_difference p n st (x : Z → Z) s :
  st ≠ 0 →
  bytes (heap s) →
  reads (heap s) p st (n + 1) x →
  ∃ s',
    subtract_nowrap_uint8 (p :: elem p st 1 :: more_args) (n :: more_dims)
      (st :: st :: more_steps) aux s = Some (tt, s') ∧
    (∀ i, 0 ≤ i < n →
          heap s' !! elem p st i =
            Some (if x i >? x (i + 1) then x i - x (i + 1) else 0)) ∧
    heap s' !! elem p st n = heap s !! elem p st n.
Proof.
  intros Hst Hby Hx.
  destruct (kernel_values more_args more_dims more_steps aux
              p (elem p st 1) n st st x (λ i, x (i + 1)) s) as (s' & R & V).
  { intros i Hi. apply Hx. lia. }
  { intros i Hi. rewrite elem_elem_1. apply Hx. lia. }
  { split; intros i j Hij Hj; rewrite ?elem_elem_1; intros E;
      apply elem_inj in E; (lia || exact Hst). }
  exists s'. split; [exact R|]. split.
  - intros i Hi. rewrite (V i Hi). f_equal.
    pose proof (Hby _ _ (Hx i ltac:(lia))).
    pose proof (Hby _ _ (Hx (i + 1) ltac:(lia))).
    apply cell_result_exact; assumption.
  - apply (kernel_frame _ _ _ _ _ _ _ _ _ _ _ _ R).
    intros (i & Hi & E). apply elem_inj in E; [lia | exact Hst].
Qed.

(** X10.  The first operand one element ahead of the second in the same
    buffer (nonzero stride): every iteration subtracts the result of the
    iteration before it, so element [i+1] ends as the running clamped
    difference [x[i+1] - (x[i] - (... - x[0]))], not as
    [x[i+1] - x[i]]. *)
Theorem backward_shifted_view_running_difference p n st (x : Z → Z) s :
  st ≠ 0 →
  bytes (heap s) →
  reads (heap s) p st (n + 1) x →
  ∃ s',
    subtract_nowrap_uint8 (elem p st 1 :: p :: more_args) (n :: more_dims)
      (st :: st :: more_steps) aux s = Some (tt, s') ∧
    ∀ i, 0 ≤ i < n →
         heap s' !! elem p st (i + 1) =
           Some (running_difference x (Z.to_nat (i + 1))).
Proof.
  intros Hst Hby Hx. rewrite kernel_iter.
  destruct (decide (n ≤ 0)) as [Hn|Hn].
  { replace (Z.to_nat n) with O by lia. simpl.
    eexists; split; [reflexivity|]. intros i Hi; lia. }
  replace (elem p st 1) with (p + st) by (unfold elem; lia).
  destruct (iter_running st (Z.to_nat n) p s (x 0) x Hst Hby) as (s' & R & V).
  - rewrite <- (elem_0 p st). apply Hx. lia.
  - intros j Hj. apply Hx. lia.
  - exists s'. split; [exact R|]. intros i Hi.
    specialize (V (Z.to_nat (i + 1)) ltac:(lia)).
    rewrite Z2Nat.id in V by lia. exact V.
Qed.

End Shifted.

(** ** The further properties at concrete calls *)

Lemma subtract_nowrap_uint8_is_in_place_pass_witness :
  (λ r, heap (snd r)) <$>
    subtract_nowrap_uint8 [101; 100] [2] [1; 1] 0 overlapping =
  Spec.apply (Spec.Build_ElementStream 101 1) (Spec.Build_ElementStream 100 1)
    (Spec.Build_ElementStream 101 1) 2 (heap overlapping).
Proof.
  apply (subtract_nowrap_uint8_is_in_place_pass [] [] [] 0
           101 100 2 1 1 overlapping).
  solve_bytes.
Defined.

Lemma subtract_nowrap_uint8_in_two_chunks_witness :
  subtract_nowrap_uint8 [100; 200] [1 + 3] [1; 1] 0 scenario =
  match subtract_nowrap_uint8 [100; 200] [1] [1; 1] 0 scenario with
  | Some (_, s') =>
      subtract_nowrap_uint8 [elem 100 1 1; elem 200 1 1] [3] [1; 1] 0 s'
  | None => None
  end.
Proof.
  apply (subtract_nowrap_uint8_in_two_chunks [] [] [] 0
           100 200 1 3 1 1 scenario); lia.
Defined.

Lemma subtract_nowrap_uint8_single_ascending_pass_witness :
  ∃ s' t,
    subtract_nowrap_uint8 [100; 200] [4] [1; 1] 0 scenario = Some (tt, s') ∧
    trace s' = trace scenario ++ t ∧
    store_addresses t = elem 100 1 <$> seqZ 0 4 ∧
    (3 * Z.to_nat 4 ≤ length t ≤ 5 * Z.to_nat 4)%nat.
Proof.
  apply (subtract_nowrap_uint8_single_ascending_pass [] [] [] 0
           100 200 4 1 1 scenario).
  solve_allocated.
Defined.

Lemma broadcast_first_operand_accumulates_witness :
  ∃ s',
    subtract_nowrap_uint8 [100; 200] [2] [0; 1] 0 broadcast = Some (tt, s') ∧
    heap s' !! 100 = Some (Z.max 0 (10 - sum_stream (λ _, 3) 2)).
Proof.
  apply (broadcast_first_operand_accumulates [] [] [] 0
           100 200 2 1 10 (λ _, 3) broadcast);
    [solve_bytes | vm_compute; reflexivity |].
  intros j Hj. index_cases j; (split; [vm_compute; reflexivity|]);
    unfold elem; lia.
Defined.

Lemma successive_subtractions_commute_witness :
  ∃ s1 s2 r1 r2,
    subtract_nowrap_uint8 [100; 200] [4] [1; 1] 0 scenario = Some (tt, s1) ∧
    subtract_nowrap_uint8 [100; 300] [4] [1; 1] 0 s1 = Some (tt, s2) ∧
    subtract_nowrap_uint8 [100; 300] [4] [1; 1] 0 scenario = Some (tt, r1) ∧
    subtract_nowrap_uint8 [100; 200] [4] [1; 1] 0 r1 = Some (tt, r2) ∧
    (∀ i, 0 ≤ i < 4 →
          heap s2 !! elem 100 1 i =
            Some (Z.max 0 (scenario_a i - scenario_b i - 9))) ∧
    heap r2 = heap s2.
Proof.
  apply (successive_subtractions_commute [] [] [] 0
           100 200 300 4 1 1 1 scenario_a scenario_b (λ _, 9) scenario);
    [solve_bytes | solve_reads | solve_reads | solve_reads
    | solve_apart | solve_apart | solve_apart].
Defined.

Lemma subtracting_zeros_leaves_heap_witness :
  ∃ s',
    subtract_nowrap_uint8 [100; 200] [2] [1; 1] 0 with_zeros = Some (tt, s') ∧
    heap s' = heap with_zeros.
Proof.
  apply (subtracting_zeros_leaves_heap [] [] [] 0 100 200 2 1 1 with_zeros);
    [solve_bytes|].
  intros i Hi. index_cases i;
    (split; [vm_compute; eexists; reflexivity | vm_compute; reflexivity]).
Defined.

Lemma reversed_views_same_heap_witness :
  ∃ s' r',
    subtract_nowrap_uint8 [100; 200] [4] [1; 1] 0 scenario = Some (tt, s') ∧
    subtract_nowrap_uint8 [elem 100 1 (4 - 1); elem 200 1 (4 - 1)] [4]
      [- (1); - (1)] 0 scenario = Some (tt, r') ∧
    heap r' = heap s'.
Proof.
  apply (reversed_views_same_heap [] [] [] 0
           100 200 4 1 1 scenario_a scenario_b scenario);
    [solve_reads | solve_reads | solve_apart |].
  intros i j Hi Hj Hne. unfold elem. lia.
Defined.

Lemma forward_shifted_view_adjacent_difference_witness :
  ∃ s',
    subtract_nowrap_uint8 [700; elem 700 1 1] [3] [1; 1] 0 buffer
      = Some (tt, s') ∧
    (∀ i, 0 ≤ i < 3 →
          heap s' !! elem 700 1 i =
            Some (if buffer_x i >? buffer_x (i + 1)
                  then buffer_x i - buffer_x (i + 1) else 0)) ∧
    heap s' !! elem 700 1 3 = heap buffer !! elem 700 1 3.
Proof.
  apply (forward_shifted_view_adjacent_difference [] [] [] 0
           700 3 1 buffer_x buffer); [lia | solve_bytes | solve_reads].
Defined.

Lemma backward_shifted_view_running_difference_witness :
  ∃ s',
    subtract_nowrap_uint8 [elem 700 1 1; 700] [3] [1; 1] 0 buffer
      = Some (tt, s') ∧
    ∀ i, 0 ≤ i < 3 →
         heap s' !! elem 700 1 (i + 1) =
           Some (running_difference buffer_x (Z.to_nat (i + 1))).
Proof.
  apply (backward_shifted_view_running_difference [] [] [] 0
           700 3 1 buffer_x buffer); [lia | solve_bytes | solve_reads].
Defined.
